(** * Smartlog commit graph of git-branchless ([branchless/graph.py])

    A shallow embedding of the graph construction of the Python prototype:
    [find_path_to_merge_base], [_walk_from_commits], [_hide_commits] and
    [make_graph], followed by the properties established about them.

    Conventions of the embedding.
    - A [pygit2.Oid] and its hexadecimal rendering [OidStr] are in one-to-one
      correspondence; both are the type [Oid] (a string) here.
    - A Python [dict] is a [gmap], a Python [set] a [gset].  The order in
      which Python iterates over a set is unspecified: it is the parameter
      [iter] of section [Smartlog], constrained only to enumerate the
      elements of the set without repetition.
    - A raised exception is an outcome [Raise e]; a loop or a recursion that
      has not finished within the given number of steps is [OutOfFuel].
    - [logging.warning] calls have no effect on the graph and are left out. *)

From stdpp Require Import gmap strings list fin_maps.

Abbreviation Oid := string.

(** ** Outcomes of fallible code *)

Inductive exn : Type := KeyError | IndexError.

Inductive result (A : Type) : Type :=
  | Ok (a : A)
  | Raise (e : exn)
  | OutOfFuel.
Arguments Ok {A} a.
Arguments Raise {A} e.
Arguments OutOfFuel {A}.

#[global] Instance result_ret : MRet result := λ A a, Ok a.
#[global] Instance result_bind : MBind result := λ A B f m,
  match m with
  | Ok a => f a
  | Raise e => Raise e
  | OutOfFuel => OutOfFuel
  end.

(** [commit.parents]: every parent identifier is resolved in turn. *)
Fixpoint mapM_result {A B : Type} (f : A → result B) (l : list A) : result (list B) :=
  match l with
  | [] => Ok []
  | x :: l => y ← f x; ys ← mapM_result f l; Ok (y :: ys)
  end.

(** Python's [all] over a generator: stops at the first false element. *)
Fixpoint all_m {A : Type} (f : A → result bool) (l : list A) : result bool :=
  match l with
  | [] => Ok true
  | x :: l => b ← f x; if b : bool then all_m f l else Ok false
  end.

(** A set comprehension [{x for x in l if f(x)}]. *)
Fixpoint filter_m (f : Oid → result bool) (l : list Oid) : result (gset Oid) :=
  match l with
  | [] => Ok ∅
  | x :: l => b ← f x; rest ← filter_m f l; Ok (if b : bool then {[x]} ∪ rest else rest)
  end.

(** ** The object store and the external collaborators *)

(** What the code reads of a [pygit2.Commit]. *)
Record Commit : Type := mkCommit {
  oid : Oid;
  parent_ids : list Oid
}.

#[global] Instance Commit_eq_dec : EqDecision Commit.
Proof. solve_decision. Defined.

(** What the code reads of a [pygit2.Repository]: the stored commits with
    their parent identifiers, the local branches and the [HEAD] reference. *)
Record Repository : Type := mkRepository {
  objects : gmap Oid (list Oid);
  local_branches : gmap string Oid;
  HEAD : option Oid
}.

(** [repo[oid]] *)
Definition repo_get (repo : Repository) (o : Oid) : result Commit :=
  match objects repo !! o with
  | Some ps => Ok (mkCommit o ps)
  | None => Raise KeyError
  end.

(** [commit.parents] *)
Definition commit_parents (repo : Repository) (c : Commit) : result (list Commit) :=
  mapM_result (repo_get repo) (parent_ids c).

(** [MergeBaseDb.get_merge_base_oid] is defined in [mergebase.py]; it is a
    parameter of the functions below. *)
Abbreviation MergeBaseDb := (Oid → Oid → option Oid).

Inductive Visibility : Type := Visible | Hidden.

(** Modelled from the spec: [Event] is declared in [eventlog.py]; the graph
    stores the latest event of a commit and never inspects it, so an opaque
    identifier stands for the record. *)
Definition Event : Type := N.

(** The queries of [EventReplayer] that the graph construction uses. *)
Record EventReplayer : Type := mkEventReplayer {
  get_commit_visibility : Oid → option Visibility;
  get_commit_latest_event : Oid → option Event;
  get_active_oids : gset Oid
}.

(** ** Nodes and graphs *)

Record Node : Type := mkNode {
  commit : Commit;
  parent : option Oid;
  children : gset Oid;
  is_master : bool;
  is_visible : bool;
  event : option Event
}.

Abbreviation CommitGraph := (gmap Oid Node).

Definition set_parent (p : option Oid) (n : Node) : Node :=
  mkNode (commit n) p (children n) (is_master n) (is_visible n) (event n).

Definition set_children (cs : gset Oid) (n : Node) : Node :=
  mkNode (commit n) (parent n) cs (is_master n) (is_visible n) (event n).

(** [graph[oid]] *)
Definition graph_get (graph : CommitGraph) (o : Oid) : result Node :=
  match graph !! o with
  | Some n => Ok n
  | None => Raise KeyError
  end.

(** ** [find_path_to_merge_base] *)

(** The [while not queue.empty()] loop; one unit of fuel per iteration. *)
Fixpoint find_path_loop (fuel : nat) (repo : Repository) (target_oid : Oid)
    (merge_base_oid : option Oid) (queue : list (list Commit))
    {struct fuel} : result (option (list Commit)) :=
  match queue with
  | [] => Ok None
  | path :: queue =>
    match fuel with
    | 0 => OutOfFuel
    | S fuel =>
      match last path with
      | None => Raise IndexError
      | Some tip =>
        if decide (oid tip = target_oid) then Ok (Some path)
        else if decide (Some (oid tip) = merge_base_oid) then
          find_path_loop fuel repo target_oid merge_base_oid queue
        else
          parents ← commit_parents repo tip;
          find_path_loop fuel repo target_oid merge_base_oid
            (queue ++ ((λ parent, path ++ [parent]) <$> parents))
      end
    end
  end.

Definition find_path_to_merge_base (fuel : nat) (repo : Repository)
    (merge_base_db : MergeBaseDb) (commit_oid target_oid : Oid)
    : result (option (list Commit)) :=
  start ← repo_get repo commit_oid;
  let merge_base_oid := merge_base_db commit_oid target_oid in
  find_path_loop fuel repo target_oid merge_base_oid [[start]].

(** ** [_walk_from_commits] *)

Definition resolve_visibility (v : option Visibility) : bool :=
  match v with
  | None | Some Visible => true
  | Some Hidden => false
  end.

(** The loop [for current_commit in path_to_merge_base], with its [break]
    at the first commit that is already a key of the graph. *)
Fixpoint add_path (event_replayer : EventReplayer) (merge_base_oid : option Oid)
    (path : list Commit) (graph : CommitGraph) : CommitGraph :=
  match path with
  | [] => graph
  | current_commit :: path =>
    let current_oid := oid current_commit in
    if decide (is_Some (graph !! current_oid)) then graph
    else
      let visible := resolve_visibility (get_commit_visibility event_replayer current_oid) in
      let master :=
        match merge_base_oid with
        | Some mb => bool_decide (current_oid = mb)
        | None => false
        end in
      add_path event_replayer merge_base_oid path
        (<[current_oid :=
             mkNode current_commit None ∅ master visible
                    (get_commit_latest_event event_replayer current_oid)]> graph)
  end.

(** The body of [for commit_oid_hex in commit_oids]. *)
Definition walk_commit (fuel : nat) (repo : Repository) (merge_base_db : MergeBaseDb)
    (event_replayer : EventReplayer) (master_oid : Oid)
    (commit_oid_hex : Oid) (graph : CommitGraph) : result CommitGraph :=
  current_commit ← repo_get repo commit_oid_hex;
  match merge_base_db (oid current_commit) master_oid with
  | None => Ok (add_path event_replayer None [current_commit] graph)
  | Some mb =>
    path_to_merge_base_opt ←
      find_path_to_merge_base fuel repo merge_base_db (oid current_commit) mb;
    match path_to_merge_base_opt with
    | None => Ok graph
    | Some path_to_merge_base =>
      Ok (add_path event_replayer (Some mb) path_to_merge_base graph)
    end
  end.

Fixpoint walk_loop (fuel : nat) (repo : Repository) (merge_base_db : MergeBaseDb)
    (event_replayer : EventReplayer) (master_oid : Oid)
    (commit_oids : list Oid) (graph : CommitGraph) : result CommitGraph :=
  match commit_oids with
  | [] => Ok graph
  | c :: commit_oids =>
    graph ← walk_commit fuel repo merge_base_db event_replayer master_oid c graph;
    walk_loop fuel repo merge_base_db event_replayer master_oid commit_oids graph
  end.

(** The local function [link]. *)
Definition link (parent_oid child_oid : Oid) (graph : CommitGraph) : result CommitGraph :=
  child ← graph_get graph child_oid;
  let graph := <[child_oid := set_parent (Some parent_oid) child]> graph in
  parent_node ← graph_get graph parent_oid;
  Ok (<[parent_oid := set_children (children parent_node ∪ {[child_oid]}) parent_node]> graph).

(** The body of [for oid, node in graph.items()].  [link] changes neither
    [is_master] nor [commit], so [node] is read from the graph as it stood
    before the pass. *)
Definition link_node (o : Oid) (node : Node) (acc : result CommitGraph) : result CommitGraph :=
  if is_master node then acc
  else
    foldl (λ acc parent_oid,
             graph ← acc;
             if decide (is_Some (graph !! parent_oid))
             then link parent_oid o graph else Ok graph)
          acc (parent_ids (commit node)).

Definition link_pass (graph : CommitGraph) : result CommitGraph :=
  map_fold link_node (Ok graph) graph.

Section Smartlog.

(** The order in which a set is iterated over. *)
Variable iter : gset Oid → list Oid.
Hypothesis iter_elem_of : ∀ (s : gset Oid) (x : Oid), x ∈ iter s ↔ x ∈ s.
Hypothesis iter_NoDup : ∀ s : gset Oid, NoDup (iter s).

(** [branch_oids] and [head_oid] are parameters of the source function that
    its body does not use. *)
Definition _walk_from_commits (fuel : nat) (repo : Repository)
    (merge_base_db : MergeBaseDb) (event_replayer : EventReplayer)
    (master_oid : Oid) (commit_oids : gset Oid) : result CommitGraph :=
  graph ← walk_loop fuel repo merge_base_db event_replayer master_oid
            (iter commit_oids) ∅;
  link_pass graph.

(** ** [_hide_commits] *)

(** The local function [should_hide]; [functools.lru_cache] only saves
    repeated evaluations of this pure function.  One unit of fuel per level
    of recursion. *)
Fixpoint should_hide (fuel : nat) (graph : CommitGraph) (unhideable_oids : gset Oid)
    (o : Oid) {struct fuel} : result bool :=
  match fuel with
  | 0 => OutOfFuel
  | S fuel =>
    if decide (o ∈ unhideable_oids) then Ok false
    else
      node ← graph_get graph o;
      if is_master node then
        if is_visible node then
          all_m (λ child_oid,
                   child ← graph_get graph child_oid;
                   if is_master child then Ok true
                   else should_hide fuel graph unhideable_oids child_oid)
                (iter (children node))
        else Ok false
      else
        if negb (is_visible node) then
          all_m (should_hide fuel graph unhideable_oids) (iter (children node))
        else Ok false
  end.

(** The body of [for oid in all_oids_to_hide], on the graph as state. *)
Definition hide_one (o : Oid) (graph : CommitGraph) : result unit * CommitGraph :=
  match graph !! o with
  | None => (Raise KeyError, graph)
  | Some node =>
    let parent_oid := parent node in
    let graph := delete o graph in
    match parent_oid with
    | None => (Ok (), graph)
    | Some p =>
      match graph !! p with
      | None => (Ok (), graph)
      | Some pn =>
        if decide (o ∈ children pn)
        then (Ok (), <[p := set_children (children pn ∖ {[o]}) pn]> graph)
        else (Raise KeyError, graph)
      end
    end
  end.

Fixpoint hide_loop (oids : list Oid) (graph : CommitGraph) : result unit * CommitGraph :=
  match oids with
  | [] => (Ok (), graph)
  | o :: oids =>
    match hide_one o graph with
    | (Ok _, graph) => hide_loop oids graph
    | failed => failed
    end
  end.

(** Returns the outcome together with the graph as the call leaves it (the
    source mutates the graph in place).  [event_replayer] is a parameter of
    the source function that its body does not use. *)
Definition _hide_commits (fuel : nat) (graph : CommitGraph)
    (branch_oids : gset Oid) (head_oid : Oid) : result unit * CommitGraph :=
  let unhideable_oids := branch_oids ∪ {[head_oid]} in
  match filter_m (should_hide fuel graph unhideable_oids) (iter (dom graph)) with
  | Ok all_oids_to_hide => hide_loop (iter all_oids_to_hide) graph
  | Raise e => (Raise e, graph)
  | OutOfFuel => (OutOfFuel, graph)
  end.

(** ** [get_master_oid] and [make_graph] *)

Definition get_master_oid (repo : Repository) : result Oid :=
  match local_branches repo !! "master" with
  | Some o => Ok o
  | None => Raise KeyError
  end.

Definition make_graph (fuel : nat) (repo : Repository) (merge_base_db : MergeBaseDb)
    (event_replayer : EventReplayer) (master_oid : Oid) (hide_commits : bool)
    : result (Oid * CommitGraph) :=
  match HEAD repo with
  | None => Raise KeyError
  | Some head_oid =>
    let commit_oids := get_active_oids event_replayer in
    let branch_oids : gset Oid := map_img (local_branches repo) in
    let commit_oids := commit_oids ∪ branch_oids ∪ {[head_oid]} in
    graph ← _walk_from_commits fuel repo merge_base_db event_replayer master_oid commit_oids;
    if hide_commits then
      match _hide_commits fuel graph branch_oids head_oid with
      | (Ok _, graph) => Ok (head_oid, graph)
      | (Raise e, _) => Raise e
      | (OutOfFuel, _) => OutOfFuel
      end
    else Ok (head_oid, graph)
  end.

End Smartlog.

(** ** A first scenario: trunk [M], feature branch [M <- A <- B <- C] *)

Module Scenario.

Definition repo : Repository :=
  mkRepository
    (<["M" := []]> (<["A" := ["M"]]> (<["B" := ["A"]]> (<["C" := ["B"]]> ∅))))
    (<["master" := "M"]> (<["feature" := "C"]> ∅))
    (Some "C").

Definition merge_base_db : MergeBaseDb :=
  λ lhs rhs, if decide (rhs = "M") then Some "M" else None.

(** [A] and [B] were hidden; [active] are the commits with recorded events. *)
Definition event_replayer (active : gset Oid) : EventReplayer :=
  mkEventReplayer
    (λ o, if decide (o = "A" ∨ o = "B") then Some Hidden else None)
    (λ _, None)
    active.

Definition node_M : Node := mkNode (mkCommit "M" []) None {["A"]} true true None.
Definition node_A : Node := mkNode (mkCommit "A" ["M"]) (Some "M") {["B"]} false false None.
Definition node_B : Node := mkNode (mkCommit "B" ["A"]) (Some "A") {["C"]} false false None.
Definition node_C : Node := mkNode (mkCommit "C" ["B"]) (Some "B") ∅ false true None.

(** The graph of the scenario. *)
Definition graph : CommitGraph :=
  <["M" := node_M]> (<["A" := node_A]> (<["B" := node_B]> (<["C" := node_C]> ∅))).

End Scenario.

(** ** Outcomes: basic facts *)

Lemma bind_Ok {A B : Type} (m : result A) (f : A → result B) (b : B) :
  (m ≫= f) = Ok b → ∃ a, m = Ok a ∧ f a = Ok b.
Proof. destruct m as [a| |]; simpl; [eauto | done | done]. Qed.




Lemma all_m_ext {A : Type} (f g : A → result bool) (l : list A) :
  (∀ x, x ∈ l → f x = g x) → all_m f l = all_m g l.
Proof.
  induction l as [|x l IH]; simpl; [done|].
  intros H. rewrite (H x) by left. destruct (g x) as [[]| |]; simpl; try done.
  apply IH. intros y Hy. apply H. by right.
Qed.

Lemma filter_m_Ok (f : Oid → result bool) (l : list Oid) (s : gset Oid) :
  filter_m f l = Ok s →
  (∀ x, x ∈ s ↔ x ∈ l ∧ f x = Ok true) ∧ (∀ x, x ∈ l → ∃ b, f x = Ok b).
Proof.
  revert s. induction l as [|x l IH]; simpl; intros s H.
  - inversion H; subst. split; [|intros y Hy; inversion Hy].
    intros y. split; [set_solver | intros [Hy _]; inversion Hy].
  - destruct (f x) as [b| |] eqn:Hx; simpl in H; try done.
    destruct (filter_m f l) as [rest| |] eqn:Hrest; simpl in H; try done.
    destruct (IH rest eq_refl) as [IH1 IH2]. inversion H; subst. split.
    + intros y. rewrite elem_of_cons. destruct b.
      * rewrite elem_of_union, elem_of_singleton, IH1. naive_solver.
      * rewrite IH1. split; [naive_solver|]. intros [[->|Hy] Hfy]; [congruence | done].
    + intros y. rewrite elem_of_cons. intros [->|Hy]; eauto.
Qed.


Lemma filter_m_ext (f g : Oid → result bool) (l : list Oid) :
  (∀ x, x ∈ l → f x = g x) → filter_m f l = filter_m g l.
Proof.
  induction l as [|x l IH]; simpl; [done|].
  intros H. rewrite (H x) by left. rewrite IH; [done|]. intros y Hy. apply H. by right.
Qed.

Lemma graph_get_Ok (graph : CommitGraph) (o : Oid) (n : Node) :
  graph_get graph o = Ok n ↔ graph !! o = Some n.
Proof. unfold graph_get. destruct (graph !! o); naive_solver. Qed.

(** ** Pruning keeps the pinned commits *)

(** [n'] is [n] with some children removed. *)
Definition node_shrinks (n n' : Node) : Prop :=
  commit n' = commit n ∧ parent n' = parent n ∧ is_master n' = is_master n ∧
  is_visible n' = is_visible n ∧ event n' = event n ∧ children n' ⊆ children n.

Lemma node_shrinks_refl (n : Node) : node_shrinks n n.
Proof. by repeat split. Qed.

Lemma node_shrinks_trans (n1 n2 n3 : Node) :
  node_shrinks n1 n2 → node_shrinks n2 n3 → node_shrinks n1 n3.
Proof.
  intros (?&?&?&?&?&?) (?&?&?&?&?&?).
  repeat split; try congruence. set_solver.
Qed.

Lemma hide_one_lookup_ne (o o' : Oid) (graph : CommitGraph) (n : Node) :
  o ≠ o' → graph !! o' = Some n →
  ∃ n', (hide_one o graph).2 !! o' = Some n' ∧ node_shrinks n n'.
Proof.
  intros Hne Hn. unfold hide_one.
  destruct (graph !! o) as [node|] eqn:Ho; simpl;
    [|exists n; split; [done | apply node_shrinks_refl]].
  assert (delete o graph !! o' = Some n) as Hdel by (by rewrite lookup_delete_ne).
  destruct (parent node) as [p|]; simpl;
    [|exists n; split; [done | apply node_shrinks_refl]].
  destruct (delete o graph !! p) as [pn|] eqn:Hp; simpl;
    [|exists n; split; [done | apply node_shrinks_refl]].
  case_decide; simpl; [|exists n; split; [done | apply node_shrinks_refl]].
  destruct (decide (p = o')) as [->|Hpo].
  - rewrite lookup_insert_eq. eexists; split; [done|].
    assert (pn = n) as -> by congruence.
    repeat split; simpl; try done. set_solver.
  - rewrite lookup_insert_ne by done. exists n; split; [done | apply node_shrinks_refl].
Qed.

Lemma hide_loop_lookup_notin (oids : list Oid) (o' : Oid) (graph : CommitGraph) (n : Node) :
  o' ∉ oids → graph !! o' = Some n →
  ∃ n', (hide_loop oids graph).2 !! o' = Some n' ∧ node_shrinks n n'.
Proof.
  revert graph n. induction oids as [|o oids IH]; simpl; intros graph n Hnotin Hn.
  - exists n; split; [done | apply node_shrinks_refl].
  - apply not_elem_of_cons in Hnotin as [Hne Hnotin].
    destruct (hide_one_lookup_ne o o' graph n) as (n1 & Hn1 & Hs1); [done..|].
    destruct (hide_one o graph) as [[[]|e|] graph1]; simpl in *; [|eauto..].
    destruct (IH graph1 n1 Hnotin Hn1) as (n2 & Hn2 & Hs2).
    exists n2; split; [done | by eapply node_shrinks_trans].
Qed.

Section Pinned.

Variable iter : gset Oid → list Oid.
Hypothesis iter_elem_of : ∀ (s : gset Oid) (x : Oid), x ∈ iter s ↔ x ∈ s.

Lemma should_hide_unhideable (fuel : nat) (graph : CommitGraph)
    (unhideable_oids : gset Oid) (o : Oid) :
  o ∈ unhideable_oids → should_hide iter fuel graph unhideable_oids o ≠ Ok true.
Proof. intros Hin. destruct fuel; simpl; [done|]. by rewrite decide_True. Qed.

(** C6: a commit that HEAD or a local branch points at is still a key of the
    graph after [_hide_commits], whatever its visibility and its children,
    and whether or not the call raises; its fields other than [children]
    are untouched. *)
Theorem hide_commits_keeps_unhideable (fuel : nat) (graph : CommitGraph)
    (branch_oids : gset Oid) (head_oid o : Oid) (n : Node) :
  o ∈ branch_oids ∨ o = head_oid →
  graph !! o = Some n →
  ∃ n', (_hide_commits iter fuel graph branch_oids head_oid).2 !! o = Some n' ∧
        node_shrinks n n'.
Proof.
  intros Hpin Hn. unfold _hide_commits.
  destruct (filter_m _ _) as [to_hide| |] eqn:Hf; simpl;
    [|exists n; split; [done | apply node_shrinks_refl]..].
  apply hide_loop_lookup_notin; [|done].
  rewrite iter_elem_of. intros Hin.
  apply filter_m_Ok in Hf as [Hf _]. apply Hf in Hin as [_ Hin].
  revert Hin. apply should_hide_unhideable. set_solver.
Qed.

End Pinned.

(** A hidden leaf that a branch points at. *)
Module PinnedLeaf.

Definition graph : CommitGraph :=
  <["M" := mkNode (mkCommit "M" []) None {["X"]} true true None]>
  (<["X" := mkNode (mkCommit "X" ["M"]) (Some "M") ∅ false false None]> ∅).

End PinnedLeaf.

Lemma hide_commits_keeps_unhideable_witness :
  ∃ n', (_hide_commits elements 3 PinnedLeaf.graph {["X"]} "M").2 !! "X" = Some n' ∧
        node_shrinks (mkNode (mkCommit "X" ["M"]) (Some "M") ∅ false false None) n'.
Proof.
  apply (hide_commits_keeps_unhideable elements (λ s x, elem_of_elements s x)
           3 PinnedLeaf.graph {["X"]} "M" "X").
  - left. set_solver.
  - reflexivity.
Defined.

(** ** The walk goes on when a merge-base or a path is missing *)

(** Commits without common history. *)
Module Orphan.

Definition repo : Repository :=
  mkRepository (<["X" := []]> (<["M" := []]> ∅)) (<["master" := "M"]> ∅) (Some "M").

Definition no_merge_base : MergeBaseDb := λ _ _, None.

Definition event_replayer : EventReplayer :=
  mkEventReplayer (λ _, None) (λ _, None) {["X"]}.

End Orphan.



(** ** [should_hide] on trunk nodes *)

(** An older trunk commit [M] below the trunk tip [T], with one abandoned
    commit [X] on top of it. *)
Module TrunkBase.

Definition repo : Repository :=
  mkRepository
    (<["M" := []]> (<["T" := ["M"]]> (<["X" := ["M"]]> ∅)))
    (<["master" := "T"]> ∅)
    (Some "T").

(** The merge-bases of this history. *)
Definition merge_base_db : MergeBaseDb :=
  λ lhs rhs, if decide (lhs = rhs) then Some lhs else Some "M".

(** [X] was hidden; [M] has no recorded visibility. *)
Definition event_replayer : EventReplayer :=
  mkEventReplayer (λ o, if decide (o = "X") then Some Hidden else None)
                  (λ _, None) {["X"]}.

(** [X] and [M] were both hidden. *)
Definition event_replayer_trunk_hidden : EventReplayer :=
  mkEventReplayer (λ o, if decide (o = "X" ∨ o = "M") then Some Hidden else None)
                  (λ _, None) {["X"]}.

Definition node_T : Node := mkNode (mkCommit "T" ["M"]) None ∅ true true None.
Definition node_M (visible : bool) (cs : gset Oid) : Node :=
  mkNode (mkCommit "M" []) None cs true visible None.
Definition node_X : Node := mkNode (mkCommit "X" ["M"]) (Some "M") ∅ false false None.

End TrunkBase.

(** What the trunk branch of [should_hide] computes. *)
Lemma should_hide_master (iter : gset Oid → list Oid) (fuel : nat)
    (graph : CommitGraph) (unhideable_oids : gset Oid) (o : Oid) (node : Node) :
  o ∉ unhideable_oids → graph !! o = Some node → is_master node = true →
  should_hide iter (S fuel) graph unhideable_oids o =
    if is_visible node then
      all_m (λ child_oid,
               child ← graph_get graph child_oid;
               if is_master child then Ok true
               else should_hide iter fuel graph unhideable_oids child_oid)
            (iter (children node))
    else Ok false.
Proof.
  intros Hu Hn Hm. simpl. rewrite decide_False by done.
  apply graph_get_Ok in Hn. rewrite Hn. simpl. by rewrite Hm.
Qed.

(** C1: the code hides a trunk node exactly when it is marked visible (and
    its non-trunk children are hidden).  With the hidden commit [X] on top
    of the visible trunk commit [M], [should_hide] holds of [M] and
    [make_graph] removes it; when [M] is marked hidden as well,
    [should_hide] does not hold of [M] and [M] is kept. *)
Theorem should_hide_trunk_visible_is_hidden :
  _walk_from_commits elements 5 TrunkBase.repo TrunkBase.merge_base_db
      TrunkBase.event_replayer "T" {["X"; "T"]}
    = Ok (<["T" := TrunkBase.node_T]>
          (<["M" := TrunkBase.node_M true {["X"]}]>
          (<["X" := TrunkBase.node_X]> ∅))) ∧
  should_hide elements 5
      (<["T" := TrunkBase.node_T]>
       (<["M" := TrunkBase.node_M true {["X"]}]>
       (<["X" := TrunkBase.node_X]> ∅))) {["T"]} "M" = Ok true ∧
  make_graph elements 5 TrunkBase.repo TrunkBase.merge_base_db
      TrunkBase.event_replayer "T" true
    = Ok ("T", <["T" := TrunkBase.node_T]> ∅) ∧
  should_hide elements 5
      (<["T" := TrunkBase.node_T]>
       (<["M" := TrunkBase.node_M false {["X"]}]>
       (<["X" := TrunkBase.node_X]> ∅))) {["T"]} "M" = Ok false ∧
  make_graph elements 5 TrunkBase.repo TrunkBase.merge_base_db
      TrunkBase.event_replayer_trunk_hidden "T" true
    = Ok ("T", <["T" := TrunkBase.node_T]> (<["M" := TrunkBase.node_M false ∅]> ∅)).
Proof. repeat split; vm_compute; reflexivity. Qed.

(** ** Ancestry in the object store *)

(** [p] is a parent of [c]. *)
Definition is_parent (repo : Repository) (c p : Oid) : Prop :=
  ∃ ps, objects repo !! c = Some ps ∧ p ∈ ps.

(** [a] is [c] itself or an ancestor of [c]. *)
Definition reachable (repo : Repository) (c a : Oid) : Prop :=
  rtc (is_parent repo) c a.

(** [a] is an ancestor of [c]: at least one parent link away. *)
Definition is_ancestor (repo : Repository) (a c : Oid) : Prop :=
  tc (is_parent repo) c a.

(** [m] is a merge-base of [a] and [b]: a common ancestor (up to equality)
    of which no other common ancestor is a descendant. *)
Definition is_merge_base (repo : Repository) (a b m : Oid) : Prop :=
  reachable repo a m ∧ reachable repo b m ∧
  ∀ m', reachable repo a m' → reachable repo b m' → ¬ is_ancestor repo m m'.

(** Every parent identifier names a stored commit. *)
Definition repo_closed (repo : Repository) : Prop :=
  ∀ c p, is_parent repo c p → is_Some (objects repo !! p).

(** Parent links are acyclic: they strictly decrease a rank. *)
Definition repo_ranked (repo : Repository) (rank : Oid → nat) : Prop :=
  ∀ c p, is_parent repo c p → rank p < rank c.

(** The commit objects of a path through parent links, oldest last. *)
Inductive ancestry_path (repo : Repository) : list Commit → Prop :=
  | ancestry_start (c : Commit) :
      repo_get repo (oid c) = Ok c → ancestry_path repo [c]
  | ancestry_step (path : list Commit) (tip c : Commit) :
      ancestry_path repo path → last path = Some tip →
      oid c ∈ parent_ids tip → repo_get repo (oid c) = Ok c →
      ancestry_path repo (path ++ [c]).

(** The commit objects of the stored parents of [tip]. *)
Definition parents_of (repo : Repository) (tip : Commit) : list Commit :=
  omap (λ o, mkCommit o <$> objects repo !! o) (parent_ids tip).

(** What one iteration of the search loop appends to the queue for [path]. *)
Definition expand (repo : Repository) (target_oid : Oid) (merge_base_oid : option Oid)
    (path : list Commit) : list (list Commit) :=
  match last path with
  | Some tip =>
    if decide (oid tip = target_oid) then []
    else if decide (Some (oid tip) = merge_base_oid) then []
    else (λ parent, path ++ [parent]) <$> parents_of repo tip
  | None => []
  end.

(** [path] ends at the target. *)
Definition hits (target_oid : Oid) (path : list Commit) : bool :=
  match last path with
  | Some tip => bool_decide (oid tip = target_oid)
  | None => false
  end.

Lemma repo_get_Ok (repo : Repository) (o : Oid) (c : Commit) :
  repo_get repo o = Ok c ↔ oid c = o ∧ objects repo !! o = Some (parent_ids c).
Proof.
  unfold repo_get. destruct (objects repo !! o) as [ps|] eqn:E; [|naive_solver].
  split.
  - intros H. inversion H; subst. done.
  - intros [<- H]. inversion H; subst. by destruct c.
Qed.

Lemma elem_of_parents_of (repo : Repository) (tip c : Commit) :
  c ∈ parents_of repo tip ↔ oid c ∈ parent_ids tip ∧ repo_get repo (oid c) = Ok c.
Proof.
  unfold parents_of. rewrite list_elem_of_omap. split.
  - intros (o & Ho & Hc). destruct (objects repo !! o) as [ps|] eqn:E; [|done].
    simpl in Hc. inversion Hc; subst. simpl. split; [done|].
    apply repo_get_Ok. done.
  - intros [Ho Hc]. exists (oid c). split; [done|].
    apply repo_get_Ok in Hc as [_ Hc]. rewrite Hc. by destruct c.
Qed.

Lemma commit_parents_closed (repo : Repository) (tip : Commit) :
  repo_closed repo → repo_get repo (oid tip) = Ok tip →
  commit_parents repo tip = Ok (parents_of repo tip).
Proof.
  intros Hclosed Htip. apply repo_get_Ok in Htip as [_ Htip].
  assert (∀ o, o ∈ parent_ids tip → is_Some (objects repo !! o)) as Hall.
  { intros o Ho. apply (Hclosed (oid tip)). by exists (parent_ids tip). }
  unfold commit_parents, parents_of. clear Htip.
  induction (parent_ids tip) as [|o os IH]; [done|]. simpl.
  destruct (Hall o) as [ps Hps]; [by left|].
  assert (repo_get repo o = Ok (mkCommit o ps)) as ->
    by (unfold repo_get; by rewrite Hps).
  rewrite Hps. simpl.
  rewrite IH by (intros o' Ho'; apply Hall; by right). done.
Qed.

Lemma ancestry_path_last (repo : Repository) (path : list Commit) :
  ancestry_path repo path →
  ∃ tip, last path = Some tip ∧ repo_get repo (oid tip) = Ok tip.
Proof.
  destruct 1 as [c Hc | path tip c _ _ _ Hc]; exists c.
  - done.
  - by rewrite last_snoc.
Qed.

Lemma ancestry_path_head (repo : Repository) (path : list Commit) :
  ancestry_path repo path → ∃ c, head path = Some c.
Proof.
  induction 1 as [c Hc | path tip c _ [c0 IH] _ _ _]; [by exists c|].
  exists c0. destruct path; [done|]. done.
Qed.

Lemma head_snoc {A : Type} (l : list A) (x y : A) :
  head l = Some x → head (l ++ [y]) = Some x.
Proof. by destruct l. Qed.

(** A path leads from its first commit to its last through parent links. *)
Lemma ancestry_path_reachable (repo : Repository) (path : list Commit) (c tip : Commit) :
  ancestry_path repo path → head path = Some c → last path = Some tip →
  reachable repo (oid c) (oid tip).
Proof.
  intros Hpath. revert c tip.
  induction Hpath as [c0 Hc0 | path tip0 c0 Hpath IH Hlast Hpar Hc0]; intros c tip Hh Hl.
  - simpl in *. simplify_eq. apply rtc_refl.
  - rewrite last_snoc in Hl. simplify_eq.
    destruct (ancestry_path_head _ _ Hpath) as [c1 Hc1].
    rewrite (head_snoc _ _ _ Hc1) in Hh. simplify_eq.
    eapply rtc_r; [by apply IH|].
    destruct (ancestry_path_last _ _ Hpath) as (tip1 & Htip1 & Hget).
    simplify_eq. apply repo_get_Ok in Hget as [_ Hget].
    by exists (parent_ids tip0).
Qed.

(** Conversely, reachability is witnessed by a path. *)
Lemma reachable_ancestry_path (repo : Repository) (c a : Oid) :
  repo_closed repo → is_Some (objects repo !! c) → reachable repo c a →
  ∃ path cc ca, ancestry_path repo path ∧ head path = Some cc ∧ last path = Some ca ∧
                oid cc = c ∧ oid ca = a.
Proof.
  intros Hclosed [ps Hps] Hreach. unfold reachable in Hreach.
  revert a Hreach. apply rtc_ind_r; [|intros a a' Hreach Hstep IH].
  - exists [mkCommit c ps], (mkCommit c ps), (mkCommit c ps).
    repeat split. constructor. by apply repo_get_Ok.
  - destruct IH as (path & cc & ca & Hpath & Hh & Hl & Hcc & Hca).
    destruct (Hclosed _ _ Hstep) as [ps' Hps'].
    destruct Hstep as (psa & Hpsa & Hin).
    destruct (ancestry_path_last _ _ Hpath) as (tip & Htip & Hget).
    simplify_eq. apply repo_get_Ok in Hget as [_ Hget].
    assert (parent_ids ca = psa) as <- by congruence.
    exists (path ++ [mkCommit a' ps']), cc, (mkCommit a' ps').
    split; [|by rewrite last_snoc, (head_snoc _ _ _ Hh)].
    eapply ancestry_step; [done..|]. by apply repo_get_Ok.
Qed.

(** ** The search loop, one level of the queue at a time *)

Lemma find_path_loop_level (repo : Repository) (target_oid : Oid)
    (merge_base_oid : option Oid) (q1 q2 : list (list Commit)) (fuel : nat) :
  repo_closed repo → Forall (ancestry_path repo) q1 →
  find_path_loop (length q1 + fuel) repo target_oid merge_base_oid (q1 ++ q2) =
    match List.find (hits target_oid) q1 with
    | Some path => Ok (Some path)
    | None =>
      find_path_loop fuel repo target_oid merge_base_oid
        (q2 ++ (q1 ≫= expand repo target_oid merge_base_oid))
    end.
Proof.
  intros Hclosed. revert q2. induction q1 as [|path q1 IH]; intros q2 Hall.
  - simpl. by rewrite app_nil_r.
  - apply Forall_cons in Hall as [Hpath Hall].
    destruct (ancestry_path_last _ _ Hpath) as (tip & Hlast & Hget).
    simpl. unfold hits at 1. rewrite Hlast.
    destruct (decide (oid tip = target_oid)) as [Heq|Hne].
    + rewrite bool_decide_eq_true_2 by done. done.
    + rewrite bool_decide_eq_false_2 by done.
      unfold expand at 1. rewrite Hlast.
      rewrite (decide_False (P := oid tip = target_oid)) by done.
      destruct (decide (Some (oid tip) = merge_base_oid)) as [Hmb|Hmb].
      * rewrite IH by done. done.
      * rewrite (commit_parents_closed _ _ Hclosed Hget). simpl.
        rewrite <- app_assoc. rewrite IH by done.
        by rewrite <- app_assoc.
Qed.

(** A whole level: the queue is processed and replaced by its expansion. *)
Lemma find_path_loop_whole_level (repo : Repository) (target_oid : Oid)
    (merge_base_oid : option Oid) (queue : list (list Commit)) (fuel : nat) :
  repo_closed repo → Forall (ancestry_path repo) queue → length queue ≤ fuel →
  find_path_loop fuel repo target_oid merge_base_oid queue =
    match List.find (hits target_oid) queue with
    | Some path => Ok (Some path)
    | None =>
      find_path_loop (fuel - length queue) repo target_oid merge_base_oid
        (queue ≫= expand repo target_oid merge_base_oid)
    end.
Proof.
  intros Hclosed Hall Hfuel.
  pose proof (find_path_loop_level repo target_oid merge_base_oid queue []
                (fuel - length queue) Hclosed Hall) as H.
  rewrite app_nil_r in H.
  by replace (length queue + (fuel - length queue)) with fuel in H by lia.
Qed.

Lemma elem_of_expand (repo : Repository) (target_oid : Oid)
    (merge_base_oid : option Oid) (path path' : list Commit) :
  path' ∈ expand repo target_oid merge_base_oid path ↔
  ∃ tip c, last path = Some tip ∧ oid tip ≠ target_oid ∧
           Some (oid tip) ≠ merge_base_oid ∧
           path' = path ++ [c] ∧ oid c ∈ parent_ids tip ∧
           repo_get repo (oid c) = Ok c.
Proof.
  unfold expand. destruct (last path) as [tip|]; [|split; [by intros ?%elem_of_nil | naive_solver]].
  destruct (decide (oid tip = target_oid));
    [split; [by intros ?%elem_of_nil | naive_solver]|].
  destruct (decide (Some (oid tip) = merge_base_oid));
    [split; [by intros ?%elem_of_nil | naive_solver]|].
  rewrite list_elem_of_fmap. setoid_rewrite elem_of_parents_of. naive_solver.
Qed.

Lemma find_hits_Some (target_oid : Oid) (q : list (list Commit)) (path : list Commit) :
  List.find (hits target_oid) q = Some path →
  path ∈ q ∧ ∃ tip, last path = Some tip ∧ oid tip = target_oid.
Proof.
  intros H. apply find_some in H as [Hin Hhit]. split; [by apply list_elem_of_In|].
  unfold hits in Hhit. destruct (last path) as [tip|]; [|done].
  exists tip. split; [done|]. by apply bool_decide_eq_true in Hhit.
Qed.

Lemma find_hits_None (target_oid : Oid) (q : list (list Commit)) (path : list Commit)
    (tip : Commit) :
  List.find (hits target_oid) q = None → path ∈ q → last path = Some tip →
  oid tip ≠ target_oid.
Proof.
  intros H Hin Hlast Heq. apply list_elem_of_In in Hin.
  pose proof (find_none _ _ H _ Hin) as Hhit.
  unfold hits in Hhit. rewrite Hlast in Hhit.
  by rewrite bool_decide_eq_true_2 in Hhit.
Qed.

Lemma ancestry_path_snoc_inv (repo : Repository) (path : list Commit) (c : Commit) :
  ancestry_path repo (path ++ [c]) → path ≠ [] →
  ancestry_path repo path ∧
  ∃ tip, last path = Some tip ∧ oid c ∈ parent_ids tip ∧ repo_get repo (oid c) = Ok c.
Proof.
  intros H Hne. inversion H as [c0 Hc0 Heq | path0 tip c0 Hpath Hlast Hpar Hc0 Heq].
  - destruct path as [|? [|? ?]]; simplify_eq.
  - apply app_inj_tail in Heq as [-> ->]. eauto.
Qed.

Lemma ancestry_path_app_inv (repo : Repository) (l1 l2 : list Commit) :
  ancestry_path repo (l1 ++ l2) → l1 ≠ [] → ancestry_path repo l1.
Proof.
  intros H Hne. induction l2 as [|x l2 IH] using rev_ind.
  - by rewrite app_nil_r in H.
  - rewrite app_assoc in H. apply ancestry_path_snoc_inv in H as [H _]; [auto|].
    by destruct l1.
Qed.

Section Search.

Variable repo : Repository.
Variable rank : Oid → nat.
Hypothesis repo_is_closed : repo_closed repo.
Hypothesis repo_is_ranked : repo_ranked repo rank.

Variables start target_oid : Oid.
Variable merge_base_oid : option Oid.

Lemma reachable_rank (c a : Oid) : reachable repo c a → rank a ≤ rank c.
Proof.
  induction 1 as [|c p a Hstep _ IH]; [done|].
  apply repo_is_ranked in Hstep. lia.
Qed.

(** Along a path the rank strictly decreases. *)
Lemma ancestry_path_rank (pre suf : list Commit) (tip t : Commit) :
  ancestry_path repo (pre ++ suf) → suf ≠ [] →
  last pre = Some tip → last (pre ++ suf) = Some t →
  rank (oid t) < rank (oid tip).
Proof.
  revert t. induction suf as [|x suf IH] using rev_ind; intros t Hpath Hne Hpre Hlast; [done|].
  rewrite app_assoc in Hpath, Hlast. rewrite last_snoc in Hlast. simplify_eq.
  assert (pre ++ suf ≠ []) as Hne' by (destruct pre; done).
  destruct (ancestry_path_snoc_inv _ _ _ Hpath Hne') as (Hpath' & tip0 & Htip0 & Hpar & _).
  destruct (ancestry_path_last _ _ Hpath') as (tip1 & Htip1 & Hget). simplify_eq.
  apply repo_get_Ok in Hget as [_ Hget].
  assert (rank (oid t) < rank (oid tip0)) as Hlt.
  { apply repo_is_ranked. by exists (parent_ids tip0). }
  destruct suf as [|y suf _] using rev_ind.
  - rewrite app_nil_r in Htip0. by simplify_eq.
  - specialize (IH tip0 Hpath'). etrans; [exact Hlt|]. apply IH; [|done..].
    by destruct suf.
Qed.

(** A path of the queue: it starts at [start]. *)
Definition from_start (path : list Commit) : Prop :=
  ancestry_path repo path ∧ ∃ c, head path = Some c ∧ oid c = start.

Lemma from_start_expand (path path' : list Commit) :
  from_start path → path' ∈ expand repo target_oid merge_base_oid path →
  from_start path' ∧ length path' = S (length path).
Proof.
  intros [Hpath (c0 & Hhead & Hc0)] Hin.
  apply elem_of_expand in Hin as (tip & c & Hlast & _ & _ & -> & Hpar & Hc).
  split; [split|].
  - by eapply ancestry_step.
  - exists c0. split; [by apply head_snoc | done].
  - rewrite length_app. simpl. lia.
Qed.

Lemma find_path_loop_nil (fuel : nat) :
  find_path_loop fuel repo target_oid merge_base_oid [] = Ok None.
Proof. by destruct fuel. Qed.

(** When the target is not reachable from [start], the queue runs empty. *)
Lemma search_exhausts (n : nat) (queue : list (list Commit)) :
  ¬ reachable repo start target_oid →
  Forall (λ path, from_start path ∧
                  ∃ tip, last path = Some tip ∧ rank (oid tip) < n) queue →
  ∃ fuel0, ∀ fuel, fuel0 ≤ fuel →
    find_path_loop fuel repo target_oid merge_base_oid queue = Ok None.
Proof.
  intros Hunreach. revert queue. induction n as [|n IH]; intros queue Hall.
  - destruct queue as [|path queue].
    + exists 0. intros fuel _. apply find_path_loop_nil.
    + apply Forall_cons in Hall as [[_ (tip & _ & Hlt)] _]. lia.
  - assert (List.find (hits target_oid) queue = None) as Hnohit.
    { destruct (List.find _ _) as [path|] eqn:Hfind; [|done].
      apply find_hits_Some in Hfind as (Hin & tip & Hlast & Htip).
      rewrite Forall_forall in Hall.
      destruct (Hall _ Hin) as [[Hpath (c0 & Hhead & Hc0)] _].
      destruct Hunreach. rewrite <- Hc0, <- Htip.
      by eapply ancestry_path_reachable. }
    destruct (IH (queue ≫= expand repo target_oid merge_base_oid)) as [fuel0 Hfuel0].
    { rewrite Forall_forall. intros path' (path & Hin' & Hin)%list_elem_of_bind.
      rewrite Forall_forall in Hall. destruct (Hall _ Hin) as [Hfrom (tip & Hlast & Hlt)].
      split; [by eapply from_start_expand|].
      apply elem_of_expand in Hin' as (tip' & c & Hlast' & _ & _ & -> & Hpar & Hc).
      simplify_eq. exists c. split; [by rewrite last_snoc|].
      destruct Hfrom as [Hpath _].
      destruct (ancestry_path_last _ _ Hpath) as (tip1 & Htip1 & Hget). simplify_eq.
      apply repo_get_Ok in Hget as [_ Hget].
      assert (rank (oid c) < rank (oid tip')); [|lia].
      apply repo_is_ranked. by exists (parent_ids tip'). }
    exists (length queue + fuel0). intros fuel Hfuel.
    rewrite find_path_loop_whole_level; [|done| |lia].
    + rewrite Hnohit. apply Hfuel0. lia.
    + eapply Forall_impl; [exact Hall|]. by intros path [[? _] _].
Qed.

(** When some path leads from [start] to the target without meeting the
    merge-base on the way, the loop returns a path that is not longer. *)
Lemma search_finds (suf pre : list Commit) (queue : list (list Commit)) :
  ancestry_path repo (pre ++ suf) →
  (∃ tip, last (pre ++ suf) = Some tip ∧ oid tip = target_oid) →
  (∀ pre' suf' tip, pre ++ suf = pre' ++ suf' → suf' ≠ [] →
     last pre' = Some tip → Some (oid tip) ≠ merge_base_oid) →
  pre ∈ queue →
  Forall (λ path, from_start path ∧ length path = length pre) queue →
  ∃ fuel0 found,
    (∀ fuel, fuel0 ≤ fuel →
       find_path_loop fuel repo target_oid merge_base_oid queue = Ok (Some found)) ∧
    from_start found ∧
    (∃ tip, last found = Some tip ∧ oid tip = target_oid) ∧
    length found ≤ length (pre ++ suf).
Proof.
  revert pre queue. induction suf as [|c suf IH]; intros pre queue Hpath Hend Hinner Hin Hall.
  - rewrite app_nil_r in *.
    destruct (List.find (hits target_oid) queue) as [found|] eqn:Hfind.
    + apply find_hits_Some in Hfind as Hfound. destruct Hfound as [Hfound Htip].
      rewrite Forall_forall in Hall. destruct (Hall _ Hfound) as [Hfrom Hlen].
      exists (length queue), found. split; [|split; [done | split; [done | lia]]].
      intros fuel Hfuel.
      rewrite find_path_loop_whole_level, Hfind; [done..| |lia].
      rewrite Forall_forall. intros p Hp. by destruct (Hall _ Hp) as [[? _] _].
    + destruct Hend as (tip & Hlast & Htip).
      by destruct (find_hits_None _ _ _ _ Hfind Hin Hlast).
  - assert (Forall (ancestry_path repo) queue) as Hpaths.
    { eapply Forall_impl; [exact Hall|]. by intros path [[? _] _]. }
    destruct (List.find (hits target_oid) queue) as [found|] eqn:Hfind.
    + apply find_hits_Some in Hfind as Hfound. destruct Hfound as [Hfound Htip].
      rewrite Forall_forall in Hall. destruct (Hall _ Hfound) as [Hfrom Hlen].
      exists (length queue), found. split; [|split; [done | split; [done|]]].
      * intros fuel Hfuel.
        rewrite find_path_loop_whole_level, Hfind; [done..|lia].
      * rewrite length_app. lia.
    + rewrite Forall_forall in Hall. destruct (Hall _ Hin) as [[Hpre _] _].
      destruct (ancestry_path_last _ _ Hpre) as (tip & Hlast & Hget).
      assert (pre ≠ []) as Hne by (intros ->; done).
      assert (ancestry_path repo (pre ++ [c])) as Hpc.
      { apply (ancestry_path_app_inv _ _ suf); [by rewrite <- app_assoc|]. by destruct pre. }
      destruct (ancestry_path_snoc_inv _ _ _ Hpc Hne) as (_ & tip' & Htip' & Hpar & Hc).
      simplify_eq.
      destruct (IH (pre ++ [c]) (queue ≫= expand repo target_oid merge_base_oid))
        as (fuel0 & found & Hrun & Hfrom & Htip & Hlen).
      * by rewrite <- app_assoc.
      * by rewrite <- app_assoc.
      * intros pre' suf' tip0 Heq. apply Hinner. by rewrite <- Heq, <- app_assoc.
      * apply list_elem_of_bind. exists pre. split; [|done].
        apply elem_of_expand. exists tip, c. repeat split; try done.
        -- by eapply find_hits_None.
        -- apply (Hinner pre (c :: suf)); done.
      * rewrite Forall_forall. intros path' (path & Hin' & Hinq)%list_elem_of_bind.
        destruct (Hall _ Hinq) as [Hfrom Hlen].
        destruct (from_start_expand _ _ Hfrom Hin') as [Hfrom' Hlen'].
        split; [done|]. rewrite length_app. simpl. lia.
      * exists (length queue + fuel0), found. split; [|split; [done | split; [done|]]].
        -- intros fuel Hfuel.
           rewrite find_path_loop_whole_level, Hfind; [|done..|lia]. apply Hrun. lia.
        -- by rewrite <- app_assoc in Hlen.
Qed.

End Search.

Lemma ancestry_path_head_get (repo : Repository) (path : list Commit) (c : Commit) :
  ancestry_path repo path → head path = Some c → repo_get repo (oid c) = Ok c.
Proof.
  induction 1 as [c0 Hc0 | path tip c0 Hpath IH _ _ _]; intros Hhead.
  - simpl in Hhead. by simplify_eq.
  - destruct (ancestry_path_head _ _ Hpath) as [c1 Hc1].
    rewrite (head_snoc _ _ _ Hc1) in Hhead. simplify_eq. by apply IH.
Qed.

(** Every path from [start] to the target bounds the length of the path
    that [find_path_to_merge_base] returns, when the merge-base recorded for
    the two commits is the target or one of its ancestors. *)
Lemma find_path_bounded (repo : Repository) (rank : Oid → nat)
    (merge_base_db : MergeBaseDb) (start target_oid : Oid)
    (path : list Commit) (cs ct : Commit) :
  repo_closed repo → repo_ranked repo rank →
  (∀ m, merge_base_db start target_oid = Some m → reachable repo target_oid m) →
  ancestry_path repo path →
  head path = Some cs → oid cs = start → last path = Some ct → oid ct = target_oid →
  ∃ fuel0 found cs' ct',
    (∀ fuel, fuel0 ≤ fuel →
       find_path_to_merge_base fuel repo merge_base_db start target_oid
         = Ok (Some found)) ∧
    ancestry_path repo found ∧
    head found = Some cs' ∧ oid cs' = start ∧
    last found = Some ct' ∧ oid ct' = target_oid ∧
    length found ≤ length path.
Proof.
  intros Hclosed Hranked Hmb Hpath Hhead Hcs Hlast Hct.
  pose proof (ancestry_path_head_get _ _ _ Hpath Hhead) as Hget.
  destruct path as [|c suf]; [done|]. simpl in Hhead. simplify_eq.
  destruct (search_finds repo Hclosed (oid cs) (oid ct)
              (merge_base_db (oid cs) (oid ct)) suf [cs] [[cs]])
    as (fuel0 & found & Hrun & [Hfound (cs' & Hhead' & Hcs')] & (ct' & Hlast' & Hct') & Hlen).
  - done.
  - by exists ct.
  - intros pre' suf' tip Heq Hne Htip Hmeet.
    simpl in Heq. rewrite Heq in Hpath, Hlast.
    pose proof (ancestry_path_rank repo rank Hranked pre' suf' tip ct
                  Hpath Hne Htip Hlast) as Hlt.
    symmetry in Hmeet. apply Hmb in Hmeet.
    apply (reachable_rank repo rank Hranked) in Hmeet. lia.
  - by left.
  - apply Forall_singleton. split; [|done]. split; [by constructor|]. by exists cs.
  - exists fuel0, found, cs', ct'. repeat split; try done.
    intros fuel Hfuel. unfold find_path_to_merge_base. rewrite Hget. simpl.
    by apply Hrun.
Qed.

(** C8: when the target is reachable from the start through parent links
    (in a closed, acyclic object store, the recorded merge-base of the two
    being the target or an ancestor of it), [find_path_to_merge_base]
    returns, given enough fuel, a path that begins with the start commit,
    ends with the target, follows a parent link at every step, and is not
    longer than any other such path. *)
Theorem find_path_is_shortest (repo : Repository) (rank : Oid → nat)
    (merge_base_db : MergeBaseDb) (start target_oid : Oid) :
  repo_closed repo → repo_ranked repo rank →
  is_Some (objects repo !! start) →
  reachable repo start target_oid →
  (∀ m, merge_base_db start target_oid = Some m → reachable repo target_oid m) →
  ∃ fuel0 path cs ct,
    (∀ fuel, fuel0 ≤ fuel →
       find_path_to_merge_base fuel repo merge_base_db start target_oid
         = Ok (Some path)) ∧
    ancestry_path repo path ∧
    head path = Some cs ∧ oid cs = start ∧
    last path = Some ct ∧ oid ct = target_oid ∧
    ∀ path' cs' ct',
      ancestry_path repo path' →
      head path' = Some cs' → oid cs' = start →
      last path' = Some ct' → oid ct' = target_oid →
      length path ≤ length path'.
Proof.
  intros Hclosed Hranked Hstart Hreach Hmb.
  destruct (reachable_ancestry_path _ _ _ Hclosed Hstart Hreach)
    as (path0 & cs0 & ct0 & Hpath0 & Hhead0 & Hlast0 & Hcs0 & Hct0).
  destruct (find_path_bounded repo rank merge_base_db start target_oid path0 cs0 ct0)
    as (fuel0 & found & cs & ct & Hrun & Hfound & Hhead & Hcs & Hlast & Hct & _);
    [done..|].
  exists fuel0, found, cs, ct. repeat split; try done.
  intros path' cs' ct' Hpath' Hhead' Hcs' Hlast' Hct'.
  destruct (find_path_bounded repo rank merge_base_db start target_oid path' cs' ct')
    as (fuel1 & found1 & _ & _ & Hrun1 & _ & _ & _ & _ & _ & Hlen);
    [done..|].
  pose proof (Hrun (fuel0 `max` fuel1) ltac:(lia)) as H0.
  pose proof (Hrun1 (fuel0 `max` fuel1) ltac:(lia)) as H1.
  rewrite H0 in H1. by simplify_eq.
Qed.

(** ** Checking a concrete object store *)

Lemma repo_closed_check (repo : Repository) :
  bool_decide (map_Forall (λ _ ps, Forall (λ p, is_Some (objects repo !! p)) ps)
                          (objects repo)) = true →
  repo_closed repo.
Proof.
  intros H%bool_decide_eq_true c p (ps & Hps & Hin).
  specialize (H c ps Hps). simpl in H. rewrite Forall_forall in H. by apply H.
Qed.

Lemma repo_ranked_check (repo : Repository) (rank : Oid → nat) :
  bool_decide (map_Forall (λ c ps, Forall (λ p, rank p < rank c) ps)
                          (objects repo)) = true →
  repo_ranked repo rank.
Proof.
  intros H%bool_decide_eq_true c p (ps & Hps & Hin).
  specialize (H c ps Hps). simpl in H. rewrite Forall_forall in H. by apply H.
Qed.

Lemma is_parent_intro (repo : Repository) (c p : Oid) (ps : list Oid) :
  objects repo !! c = Some ps → bool_decide (p ∈ ps) = true → is_parent repo c p.
Proof. intros Hps Hin%bool_decide_eq_true. by exists ps. Qed.

Lemma no_parent_of_root (repo : Repository) (c p : Oid) :
  objects repo !! c = Some [] → ¬ is_parent repo c p.
Proof. intros Hc (ps & Hps & Hin). simplify_eq. by apply elem_of_nil in Hin. Qed.

Lemma reachable_from_root (repo : Repository) (c a : Oid) :
  objects repo !! c = Some [] → reachable repo c a → a = c.
Proof.
  intros Hc Hreach. destruct Hreach as [|c p a Hstep _]; [done|].
  by destruct (no_parent_of_root _ _ _ Hc Hstep).
Qed.

Lemma no_ancestor_of_root (repo : Repository) (c a : Oid) :
  objects repo !! c = Some [] → ¬ is_ancestor repo a c.
Proof.
  intros Hc Hanc. unfold is_ancestor in Hanc.
  destruct Hanc as [c p Hstep | c p a Hstep _];
    by destruct (no_parent_of_root _ _ _ Hc Hstep).
Qed.

(** One parent link of a concrete object store. *)
Ltac parent_step p ps :=
  apply (rtc_l _ _ p); [apply (is_parent_intro _ _ _ ps); vm_compute; reflexivity|].

(** Two branches [A] and [B] that share only the root [M]. *)
Module TwoBranches.

Definition repo : Repository :=
  mkRepository (<["A" := ["M"]]> (<["B" := ["M"]]> (<["M" := []]> ∅)))
               (<["master" := "B"]> ∅) (Some "A").

Definition merge_base_db : MergeBaseDb :=
  λ lhs rhs, if decide (lhs = rhs) then Some lhs else Some "M".

Definition rank (o : Oid) : nat := if decide (o = "M") then 0 else 1.

End TwoBranches.

(** A merge commit [S] above a long and a short way to [T]. *)
Module Diamond.

Definition repo : Repository :=
  mkRepository
    (<["S" := ["L1"; "R"]]> (<["L1" := ["L2"]]> (<["L2" := ["T"]]>
     (<["R" := ["T"]]> (<["T" := []]> ∅)))))
    (<["master" := "T"]> ∅) (Some "S").

Definition merge_base_db : MergeBaseDb := λ _ _, Some "T".

Definition rank (o : Oid) : nat :=
  if decide (o = "S") then 3
  else if decide (o = "L1") then 2
  else if decide (o = "T") then 0
  else 1.

End Diamond.

(** A child [A] and its parent [B]. *)
Module ParentChild.

Definition repo : Repository :=
  mkRepository (<["A" := ["B"]]> (<["B" := []]> ∅)) (<["master" := "B"]> ∅) (Some "A").

Definition merge_base_db : MergeBaseDb := λ _ _, Some "B".

End ParentChild.

Lemma find_path_is_shortest_witness :
  ∃ fuel0 path cs ct,
    (∀ fuel, fuel0 ≤ fuel →
       find_path_to_merge_base fuel Diamond.repo Diamond.merge_base_db "S" "T"
         = Ok (Some path)) ∧
    ancestry_path Diamond.repo path ∧
    head path = Some cs ∧ oid cs = "S" ∧
    last path = Some ct ∧ oid ct = "T" ∧
    ∀ path' cs' ct',
      ancestry_path Diamond.repo path' →
      head path' = Some cs' → oid cs' = "S" →
      last path' = Some ct' → oid ct' = "T" →
      length path ≤ length path'.
Proof.
  apply (find_path_is_shortest Diamond.repo Diamond.rank Diamond.merge_base_db "S" "T").
  - apply repo_closed_check. vm_compute. reflexivity.
  - apply repo_ranked_check. vm_compute. reflexivity.
  - vm_compute. eauto.
  - parent_step "L1" ["L1"; "R"]. parent_step "L2" ["L2"]. parent_step "T" ["T"].
    apply rtc_refl.
  - intros m Hm. vm_compute in Hm. simplify_eq. apply rtc_refl.
Defined.

Example find_path_diamond :
  find_path_to_merge_base 10 Diamond.repo Diamond.merge_base_db "S" "T"
    = Ok (Some [mkCommit "S" ["L1"; "R"]; mkCommit "R" ["T"]; mkCommit "T" []]).
Proof. vm_compute. reflexivity. Qed.

(** ** More fuel does not change a result *)

Lemma find_path_loop_mono (repo : Repository) (target_oid : Oid)
    (merge_base_oid : option Oid) (fuel fuel' : nat) (queue : list (list Commit))
    (r : option (list Commit)) :
  fuel ≤ fuel' →
  find_path_loop fuel repo target_oid merge_base_oid queue = Ok r →
  find_path_loop fuel' repo target_oid merge_base_oid queue = Ok r.
Proof.
  revert fuel' queue. induction fuel as [|fuel IH]; intros fuel' queue Hle H.
  - destruct queue; [|done]. by destruct fuel'.
  - destruct fuel' as [|fuel']; [lia|]. destruct queue as [|path queue]; [done|].
    simpl in *. destruct (last path) as [tip|]; [|done].
    destruct (decide (oid tip = target_oid)); [done|].
    destruct (decide (Some (oid tip) = merge_base_oid)); [apply IH; [lia | done]|].
    destruct (commit_parents repo tip) as [parents| |]; simpl in *; [|done..].
    apply IH; [lia | done].
Qed.

Lemma find_path_to_merge_base_mono (repo : Repository) (merge_base_db : MergeBaseDb)
    (fuel fuel' : nat) (commit_oid target_oid : Oid) (r : option (list Commit)) :
  fuel ≤ fuel' →
  find_path_to_merge_base fuel repo merge_base_db commit_oid target_oid = Ok r →
  find_path_to_merge_base fuel' repo merge_base_db commit_oid target_oid = Ok r.
Proof.
  unfold find_path_to_merge_base. intros Hle H.
  destruct (repo_get repo commit_oid) as [start| |]; simpl in *; [|done..].
  by eapply find_path_loop_mono.
Qed.

Lemma walk_commit_mono (repo : Repository) (merge_base_db : MergeBaseDb)
    (event_replayer : EventReplayer) (master_oid : Oid) (fuel fuel' : nat)
    (c : Oid) (graph graph' : CommitGraph) :
  fuel ≤ fuel' →
  walk_commit fuel repo merge_base_db event_replayer master_oid c graph = Ok graph' →
  walk_commit fuel' repo merge_base_db event_replayer master_oid c graph = Ok graph'.
Proof.
  unfold walk_commit. intros Hle H.
  destruct (repo_get repo c) as [cc| |]; simpl in *; [|done..].
  destruct (merge_base_db (oid cc) master_oid) as [mb|]; [|done].
  destruct (find_path_to_merge_base fuel _ _ _ _) as [r| |] eqn:Hpath; simpl in *; [|done..].
  by rewrite (find_path_to_merge_base_mono _ _ _ _ _ _ _ Hle Hpath).
Qed.

Lemma walk_loop_mono (repo : Repository) (merge_base_db : MergeBaseDb)
    (event_replayer : EventReplayer) (master_oid : Oid) (fuel fuel' : nat)
    (commit_oids : list Oid) (graph graph' : CommitGraph) :
  fuel ≤ fuel' →
  walk_loop fuel repo merge_base_db event_replayer master_oid commit_oids graph
    = Ok graph' →
  walk_loop fuel' repo merge_base_db event_replayer master_oid commit_oids graph
    = Ok graph'.
Proof.
  intros Hle. revert graph. induction commit_oids as [|c cs IH]; intros graph H; [done|].
  simpl in *.
  destruct (walk_commit fuel _ _ _ _ _ _) as [g1| |] eqn:Hc; simpl in *; [|done..].
  rewrite (walk_commit_mono _ _ _ _ _ _ _ _ _ Hle Hc). simpl. by apply IH.
Qed.

Lemma all_m_mono {A : Type} (f g : A → result bool) (l : list A) (b : bool) :
  (∀ x b, x ∈ l → f x = Ok b → g x = Ok b) → all_m f l = Ok b → all_m g l = Ok b.
Proof.
  induction l as [|x l IH]; simpl; intros Hfg H; [done|].
  destruct (f x) as [bx| |] eqn:Hx; simpl in *; [|done..].
  rewrite (Hfg x bx) by (done || by left). simpl. destruct bx; [|done].
  apply IH; [|done]. intros y by' Hy. apply Hfg. by right.
Qed.

Lemma filter_m_mono (f g : Oid → result bool) (l : list Oid) (s : gset Oid) :
  (∀ x b, x ∈ l → f x = Ok b → g x = Ok b) → filter_m f l = Ok s → filter_m g l = Ok s.
Proof.
  revert s. induction l as [|x l IH]; simpl; intros s Hfg H; [done|].
  destruct (f x) as [bx| |] eqn:Hx; simpl in *; [|done..].
  rewrite (Hfg x bx) by (done || by left). simpl.
  destruct (filter_m f l) as [rest| |] eqn:Hrest; simpl in *; [|done..].
  rewrite (IH rest); [done| |done]. intros y by' Hy. apply Hfg. by right.
Qed.

Section FuelHide.

Variable iter : gset Oid → list Oid.

Lemma should_hide_mono (graph : CommitGraph) (unhideable_oids : gset Oid)
    (fuel fuel' : nat) (o : Oid) (b : bool) :
  fuel ≤ fuel' →
  should_hide iter fuel graph unhideable_oids o = Ok b →
  should_hide iter fuel' graph unhideable_oids o = Ok b.
Proof.
  revert fuel' o b. induction fuel as [|fuel IH]; intros fuel' o b Hle H; [done|].
  destruct fuel' as [|fuel']; [lia|]. simpl in *.
  destruct (decide (o ∈ unhideable_oids)); [done|].
  destruct (graph_get graph o) as [node| |]; simpl in *; [|done..].
  destruct (is_master node).
  - destruct (is_visible node); [|done].
    eapply all_m_mono; [|exact H]. intros c bc _ Hc. simpl in *.
    destruct (graph_get graph c) as [child| |]; simpl in *; [|done..].
    destruct (is_master child); [done|]. apply IH; [lia | done].
  - destruct (negb (is_visible node)); [|done].
    eapply all_m_mono; [|exact H]. intros c bc _ Hc. apply IH; [lia | done].
Qed.

Lemma hide_commits_mono (fuel fuel' : nat) (graph graph' : CommitGraph)
    (branch_oids : gset Oid) (head_oid : Oid) :
  fuel ≤ fuel' →
  _hide_commits iter fuel graph branch_oids head_oid = (Ok (), graph') →
  _hide_commits iter fuel' graph branch_oids head_oid = (Ok (), graph').
Proof.
  unfold _hide_commits. intros Hle H.
  destruct (filter_m (should_hide iter fuel _ _) _) as [s| |] eqn:Hf; [|done..].
  erewrite filter_m_mono; [done| |exact Hf].
  intros x b _. by apply should_hide_mono.
Qed.

Lemma make_graph_mono (fuel fuel' : nat) (repo : Repository)
    (merge_base_db : MergeBaseDb) (event_replayer : EventReplayer)
    (master_oid : Oid) (hide_commits : bool) (r : Oid * CommitGraph) :
  fuel ≤ fuel' →
  make_graph iter fuel repo merge_base_db event_replayer master_oid hide_commits = Ok r →
  make_graph iter fuel' repo merge_base_db event_replayer master_oid hide_commits = Ok r.
Proof.
  unfold make_graph, _walk_from_commits. intros Hle H.
  destruct (HEAD repo) as [head_oid|]; [|done].
  destruct (walk_loop fuel _ _ _ _ _ _) as [g0| |] eqn:Hwalk; simpl in *; [|done..].
  rewrite (walk_loop_mono _ _ _ _ _ _ _ _ _ Hle Hwalk). simpl.
  destruct (link_pass g0) as [g1| |]; simpl in *; [|done..].
  destruct hide_commits; [|done].
  destruct (_hide_commits iter fuel g1 _ _) as [[[]|e|] g2] eqn:Hhide; [|done..].
  by rewrite (hide_commits_mono _ _ _ _ _ _ Hle Hhide).
Qed.

End FuelHide.

(** ** The search comes back empty-handed only when the target is out of reach *)

(** C4, as stated, fails: in the history [A -> B] the commit [A] is not an
    ancestor of [B] and the merge-base of the two is [B], yet the search
    from [A] for [B] returns the path [A, B] and never absent. *)
Lemma find_path_not_absent_for_descendant :
  repo_closed ParentChild.repo ∧
  is_merge_base ParentChild.repo "A" "B" "B" ∧
  ParentChild.merge_base_db "A" "B" = Some "B" ∧
  ¬ is_ancestor ParentChild.repo "A" "B" ∧
  ∀ fuel, 2 ≤ fuel →
    find_path_to_merge_base fuel ParentChild.repo ParentChild.merge_base_db "A" "B"
      = Ok (Some [mkCommit "A" ["B"]; mkCommit "B" []]).
Proof.
  assert (objects ParentChild.repo !! "B" = Some []) as HB by (vm_compute; reflexivity).
  split; [apply repo_closed_check; vm_compute; reflexivity|].
  split; [|split; [done | split]].
  - split; [|split].
    + parent_step "B" ["B"]. apply rtc_refl.
    + apply rtc_refl.
    + intros m' _ Hm'. apply (reachable_from_root _ _ _ HB) in Hm' as ->.
      by apply no_ancestor_of_root.
  - by apply no_ancestor_of_root.
  - intros fuel Hfuel. eapply find_path_to_merge_base_mono; [exact Hfuel|].
    vm_compute. reflexivity.
Qed.

(** C4, amended: when [B] is neither [A] nor an ancestor of [A] (in a closed,
    acyclic object store), the search from [A] for [B] returns absent, given
    enough fuel and whatever merge-base is recorded.  The loop returns the
    path at the head of the queue as soon as it ends at the target, drops it
    when it ends at the merge-base and not at the target, and returns absent
    on an empty queue.  For the two branches [A -> M] and [B -> M] the
    search from [A] for [B] is absent and the one for [M] is [A, M]. *)
Theorem find_path_absent_when_unreachable (repo : Repository) (rank : Oid → nat)
    (merge_base_db : MergeBaseDb) (a b : Oid) :
  repo_closed repo → repo_ranked repo rank →
  is_Some (objects repo !! a) →
  ¬ reachable repo a b →
  (∃ fuel0, ∀ fuel, fuel0 ≤ fuel →
     find_path_to_merge_base fuel repo merge_base_db a b = Ok None) ∧
  (∀ fuel target_oid merge_base_oid path queue tip,
     last path = Some tip → oid tip = target_oid →
     find_path_loop (S fuel) repo target_oid merge_base_oid (path :: queue)
       = Ok (Some path)) ∧
  (∀ fuel target_oid merge_base_oid path queue tip,
     last path = Some tip → oid tip ≠ target_oid → Some (oid tip) = merge_base_oid →
     find_path_loop (S fuel) repo target_oid merge_base_oid (path :: queue)
       = find_path_loop fuel repo target_oid merge_base_oid queue) ∧
  (∀ fuel target_oid merge_base_oid,
     find_path_loop fuel repo target_oid merge_base_oid [] = Ok None) ∧
  (∀ fuel, 3 ≤ fuel →
     find_path_to_merge_base fuel TwoBranches.repo TwoBranches.merge_base_db "A" "B"
       = Ok None ∧
     find_path_to_merge_base fuel TwoBranches.repo TwoBranches.merge_base_db "A" "M"
       = Ok (Some [mkCommit "A" ["M"]; mkCommit "M" []])).
Proof.
  intros Hclosed Hranked [ps Hps] Hunreach. repeat split.
  - destruct (search_exhausts repo rank Hclosed Hranked a b (merge_base_db a b)
                (S (rank a)) [[mkCommit a ps]] Hunreach) as [fuel0 Hrun].
    { apply Forall_singleton. split.
      - split; [constructor; by apply repo_get_Ok|]. by eexists.
      - eexists. split; [done|]. simpl. lia. }
    exists fuel0. intros fuel Hfuel. unfold find_path_to_merge_base, repo_get.
    rewrite Hps. simpl. by apply Hrun.
  - intros fuel target_oid merge_base_oid path queue tip Hlast Htip.
    simpl. rewrite Hlast. by rewrite decide_True.
  - intros fuel target_oid merge_base_oid path queue tip Hlast Htip Hmb.
    simpl. rewrite Hlast. rewrite decide_False by done. by rewrite decide_True.
  - intros fuel target_oid merge_base_oid. by destruct fuel.
  - eapply find_path_to_merge_base_mono; [eassumption|]. vm_compute. reflexivity.
  - eapply find_path_to_merge_base_mono; [eassumption|]. vm_compute. reflexivity.
Qed.

Lemma find_path_absent_when_unreachable_witness :
  (∃ fuel0, ∀ fuel, fuel0 ≤ fuel →
     find_path_to_merge_base fuel TwoBranches.repo TwoBranches.merge_base_db "A" "B"
       = Ok None) ∧
  (∀ fuel target_oid merge_base_oid path queue tip,
     last path = Some tip → oid tip = target_oid →
     find_path_loop (S fuel) TwoBranches.repo target_oid merge_base_oid (path :: queue)
       = Ok (Some path)) ∧
  (∀ fuel target_oid merge_base_oid path queue tip,
     last path = Some tip → oid tip ≠ target_oid → Some (oid tip) = merge_base_oid →
     find_path_loop (S fuel) TwoBranches.repo target_oid merge_base_oid (path :: queue)
       = find_path_loop fuel TwoBranches.repo target_oid merge_base_oid queue) ∧
  (∀ fuel target_oid merge_base_oid,
     find_path_loop fuel TwoBranches.repo target_oid merge_base_oid [] = Ok None) ∧
  (∀ fuel, 3 ≤ fuel →
     find_path_to_merge_base fuel TwoBranches.repo TwoBranches.merge_base_db "A" "B"
       = Ok None ∧
     find_path_to_merge_base fuel TwoBranches.repo TwoBranches.merge_base_db "A" "M"
       = Ok (Some [mkCommit "A" ["M"]; mkCommit "M" []])).
Proof.
  apply (find_path_absent_when_unreachable TwoBranches.repo TwoBranches.rank
           TwoBranches.merge_base_db "A" "B").
  - apply repo_closed_check. vm_compute. reflexivity.
  - apply repo_ranked_check. vm_compute. reflexivity.
  - vm_compute. eauto.
  - intros Hreach.
    assert (objects TwoBranches.repo !! "M" = Some []) as HM by (vm_compute; reflexivity).
    inversion Hreach as [|x y z Hstep Hrest]; subst.
    destruct Hstep as (ps & Hps & Hin). vm_compute in Hps. simplify_eq.
    apply list_elem_of_singleton in Hin as ->.
    by apply (reachable_from_root _ _ _ HM) in Hrest.
Defined.

(** ** The linking pass, described node by node *)

(** What [link] does to the node stored under [k]. *)
Definition link_upd (parent_oid child_oid k : Oid) (n : Node) : Node :=
  set_children (if decide (k = parent_oid) then children n ∪ {[child_oid]} else children n)
    (set_parent (if decide (k = child_oid) then Some parent_oid else parent n) n).

Lemma link_lookup (parent_oid child_oid : Oid) (graph : CommitGraph) :
  is_Some (graph !! child_oid) → is_Some (graph !! parent_oid) →
  ∃ graph', link parent_oid child_oid graph = Ok graph' ∧
            ∀ k, graph' !! k = link_upd parent_oid child_oid k <$> graph !! k.
Proof.
  intros [child Hchild] [pn Hpn]. unfold link.
  apply graph_get_Ok in Hchild as Hget. rewrite Hget. simpl.
  destruct (decide (parent_oid = child_oid)) as [->|Hne].
  - unfold graph_get. rewrite lookup_insert_eq. simpl. eexists. split; [done|].
    intros k. unfold link_upd. destruct (decide (k = child_oid)) as [->|Hk].
    + rewrite lookup_insert_eq, Hchild. done.
    + by rewrite !lookup_insert_ne, <- (option_fmap_id (graph !! k)) at 1
        by done; destruct (graph !! k) as [[]|].
  - unfold graph_get. rewrite lookup_insert_ne, Hpn by done. simpl.
    eexists. split; [done|]. intros k. unfold link_upd.
    destruct (decide (k = parent_oid)) as [->|Hkp].
    + rewrite lookup_insert_eq, Hpn. simpl. by rewrite decide_False.
    + rewrite lookup_insert_ne by done.
      destruct (decide (k = child_oid)) as [->|Hkc].
      * by rewrite lookup_insert_eq, Hchild.
      * rewrite lookup_insert_ne by done. by destruct (graph !! k) as [[]|].
Qed.

(** The inner loop [for parent_oid in node.commit.parent_ids] for the node
    stored under [o]. *)
Definition link_parents (o : Oid) (parent_ids : list Oid) (acc : result CommitGraph)
    : result CommitGraph :=
  foldl (λ acc parent_oid,
           graph ← acc;
           if decide (is_Some (graph !! parent_oid))
           then link parent_oid o graph else Ok graph)
        acc parent_ids.

(** The parents of a commit that are keys of the graph. *)
Definition parents_in_graph (graph : CommitGraph) (ps : list Oid) : list Oid :=
  filter (λ p, is_Some (graph !! p)) ps.

(** What the inner loop does to the node stored under [k]. *)
Definition link_parents_upd (graph : CommitGraph) (o : Oid) (ps : list Oid)
    (k : Oid) (n : Node) : Node :=
  set_children
    (if decide (k ∈ parents_in_graph graph ps) then children n ∪ {[o]} else children n)
    (set_parent
       (if decide (k = o)
        then from_option Some (parent n) (last (parents_in_graph graph ps))
        else parent n) n).

Lemma link_parents_lookup (o : Oid) (ps : list Oid) (graph : CommitGraph) :
  is_Some (graph !! o) →
  ∃ graph', link_parents o ps (Ok graph) = Ok graph' ∧
            ∀ k, graph' !! k = link_parents_upd graph o ps k <$> graph !! k.
Proof.
  intros Ho. induction ps as [|p ps IH] using rev_ind.
  - exists graph. split; [done|]. intros k. unfold link_parents_upd, parents_in_graph.
    rewrite filter_nil. destruct (graph !! k) as [[]|]; simpl; [|done].
    unfold set_children, set_parent. simpl.
    destruct (decide (k ∈ [])) as [?%elem_of_nil|]; [done|]. by case_decide.
  - destruct IH as (g1 & Hg1 & Hlook1). unfold link_parents in *.
    rewrite foldl_app, Hg1. simpl.
    assert (∀ k, is_Some (g1 !! k) ↔ is_Some (graph !! k)) as Hdom.
    { intros k. rewrite Hlook1. by rewrite fmap_is_Some. }
    unfold parents_in_graph in *.
    destruct (decide (is_Some (g1 !! p))) as [Hp|Hp].
    + destruct (link_lookup p o g1) as (g2 & Hg2 & Hlook2); [by apply Hdom | done |].
      exists g2. split; [done|]. intros k. rewrite Hlook2, Hlook1.
      rewrite <- option_fmap_compose. apply option_fmap_ext. intros n.
      unfold link_parents_upd, link_upd, parents_in_graph. simpl.
      rewrite filter_app, filter_cons_True, filter_nil by (by apply Hdom).
      rewrite last_snoc. simpl.
      unfold set_children, set_parent. simpl. f_equal.
      * by repeat case_decide.
      * repeat case_decide; set_solver.
    + exists g1. split; [done|]. intros k. rewrite Hlook1.
      apply option_fmap_ext. intros n. unfold link_parents_upd, parents_in_graph.
      rewrite filter_app, filter_cons_False, filter_nil by (by rewrite <- Hdom).
      by rewrite app_nil_r.
Qed.

(** The parent that the pass records for a node: none for a trunk node, the
    last of the commit's parents that is a key of the graph otherwise. *)
Definition linked_parent (g0 : CommitGraph) (n0 : Node) : option Oid :=
  if is_master n0 then None else last (parents_in_graph g0 (parent_ids (commit n0))).

(** The non-trunk nodes of [m] whose commit has [k] among its parents. *)
Definition linked_children (m : CommitGraph) (k : Oid) : gset Oid :=
  dom (filter (λ kn, is_master kn.2 = false ∧ k ∈ parent_ids (commit kn.2)) m).

(** The node under [k] once the nodes of [m] have been linked. *)
Definition linked_node (g0 m : CommitGraph) (k : Oid) (n0 : Node) : Node :=
  mkNode (commit n0) (m !! k ≫= linked_parent g0) (linked_children m k)
         (is_master n0) (is_visible n0) (event n0).

(** The graph as the walk leaves it: no links yet. *)
Definition unlinked (g0 : CommitGraph) : Prop :=
  ∀ k n, g0 !! k = Some n → parent n = None ∧ children n = ∅.

Lemma elem_of_linked_children (m : CommitGraph) (k c : Oid) :
  c ∈ linked_children m k ↔
  ∃ nc, m !! c = Some nc ∧ is_master nc = false ∧ k ∈ parent_ids (commit nc).
Proof.
  unfold linked_children. rewrite elem_of_dom. unfold is_Some.
  setoid_rewrite map_lookup_filter_Some. naive_solver.
Qed.

Lemma elem_of_parents_in_graph (graph : CommitGraph) (ps : list Oid) (p : Oid) :
  p ∈ parents_in_graph graph ps ↔ p ∈ ps ∧ is_Some (graph !! p).
Proof. unfold parents_in_graph. rewrite list_elem_of_filter. naive_solver. Qed.

Lemma parents_in_graph_ext (g g' : CommitGraph) (ps : list Oid) :
  (∀ k, is_Some (g !! k) ↔ is_Some (g' !! k)) →
  parents_in_graph g ps = parents_in_graph g' ps.
Proof.
  intros Hdom. unfold parents_in_graph. induction ps as [|p ps IH]; [done|].
  destruct (decide (is_Some (g !! p))) as [Hp|Hp].
  - rewrite !filter_cons_True by (done || by apply Hdom). by rewrite IH.
  - rewrite !filter_cons_False by (done || by rewrite <- Hdom). done.
Qed.

Lemma link_pass_lookup (g0 : CommitGraph) :
  unlinked g0 →
  ∃ g1, link_pass g0 = Ok g1 ∧ ∀ k, g1 !! k = linked_node g0 g0 k <$> g0 !! k.
Proof.
  intros Hunlinked. unfold link_pass.
  cut (g0 ⊆ g0 → ∃ g, map_fold link_node (Ok g0) g0 = Ok g ∧
                       ∀ k, g !! k = linked_node g0 g0 k <$> g0 !! k); [auto|].
  apply (map_fold_weak_ind
           (λ r m, m ⊆ g0 → ∃ g, r = Ok g ∧ ∀ k, g !! k = linked_node g0 m k <$> g0 !! k)).
  - intros _. exists g0. split; [done|]. intros k.
    destruct (g0 !! k) as [n0|] eqn:Hk; [|done]. simpl. f_equal.
    destruct (Hunlinked _ _ Hk) as [Hp Hc]. unfold linked_node.
    rewrite lookup_empty. simpl. destruct n0; simpl in *. subst. by f_equal.
  - intros i x m r Hi IH Hsub.
    assert (g0 !! i = Some x) as Hx.
    { eapply lookup_weaken; [|exact Hsub]. apply lookup_insert_eq. }
    destruct IH as (g & -> & Hlook).
    { etrans; [|exact Hsub]. by apply insert_subseteq. }
    unfold link_node. destruct (is_master x) eqn:Hmaster.
    + exists g. split; [done|]. intros k. rewrite Hlook.
      apply option_fmap_ext. intros n0. unfold linked_node. f_equal.
      * destruct (decide (k = i)) as [->|Hne].
        -- rewrite lookup_insert_eq, Hi. simpl. unfold linked_parent. by rewrite Hmaster.
        -- by rewrite lookup_insert_ne.
      * apply set_eq. intros c. rewrite !elem_of_linked_children.
        setoid_rewrite lookup_insert_Some. split; [naive_solver|].
        intros (nc & [[-> ->] | [? ?]] & Hm & ?); [by rewrite Hmaster in Hm | eauto].
    + assert (∀ k, is_Some (g !! k) ↔ is_Some (g0 !! k)) as Hdom.
      { intros k. rewrite Hlook. by rewrite fmap_is_Some. }
      destruct (link_parents_lookup i (parent_ids (commit x)) g)
        as (g' & Hg' & Hlook'); [by apply Hdom|].
      exists g'. split; [exact Hg'|]. intros k. rewrite Hlook', Hlook.
      destruct (g0 !! k) as [n0|] eqn:Hk; [|done]. simpl. f_equal.
      unfold link_parents_upd, linked_node, set_children, set_parent. simpl.
      rewrite (parents_in_graph_ext g g0) by done. f_equal.
      * destruct (decide (k = i)) as [->|Hne].
        -- rewrite lookup_insert_eq, Hi. simpl. unfold linked_parent.
           rewrite Hmaster. by destruct (last _).
        -- by rewrite lookup_insert_ne.
      * apply set_eq. intros c.
        assert (c ∈ linked_children (<[i:=x]> m) k ↔
                (c = i ∧ k ∈ parent_ids (commit x)) ∨ c ∈ linked_children m k) as ->.
        { rewrite !elem_of_linked_children. setoid_rewrite lookup_insert_Some.
          split.
          - intros (nc & [[-> ->] | [? ?]] & ? & ?); [by left | right; eauto].
          - intros [[-> ?] | (nc & Hnc & ? & ?)].
            + exists x. naive_solver.
            + exists nc. split; [|done]. right. split; [|done]. congruence. }
        case_decide as Hin.
        -- apply elem_of_parents_in_graph in Hin as [Hin _]. set_solver.
        -- rewrite elem_of_parents_in_graph in Hin. split; [by right|].
           intros [[-> Hkin] | ?]; [|done]. destruct Hin. split; [done | by eexists].
Qed.

(** ** What the walk puts into the graph *)

Lemma mapM_result_Ok {A B : Type} (f : A → result B) (l : list A) (ys : list B) :
  mapM_result f l = Ok ys → Forall2 (λ x y, f x = Ok y) l ys.
Proof.
  revert ys. induction l as [|x l IH]; simpl; intros ys H.
  - inversion H. constructor.
  - destruct (f x) as [y| |] eqn:Hx; simpl in H; [|done..].
    destruct (mapM_result f l) as [ys'| |]; simpl in H; [|done..].
    inversion H; subst. constructor; [done | by apply IH].
Qed.

Lemma commit_parents_Ok (repo : Repository) (tip c : Commit) (parents : list Commit) :
  commit_parents repo tip = Ok parents → c ∈ parents →
  oid c ∈ parent_ids tip ∧ repo_get repo (oid c) = Ok c.
Proof.
  intros H%mapM_result_Ok Hin.
  induction H as [|o c' os cs Hget _ IH]; [by apply elem_of_nil in Hin|].
  apply elem_of_cons in Hin as [->|Hin].
  - apply repo_get_Ok in Hget as Hoid. destruct Hoid as [Hoid _]. rewrite Hoid.
    split; [by left | done].
  - destruct (IH Hin) as [? ?]. split; [by right | done].
Qed.

(** The path that the search returns is a path of the object store. *)
Lemma find_path_loop_ancestry (repo : Repository) (target_oid : Oid)
    (merge_base_oid : option Oid) (fuel : nat) (queue : list (list Commit))
    (path : list Commit) :
  Forall (ancestry_path repo) queue →
  find_path_loop fuel repo target_oid merge_base_oid queue = Ok (Some path) →
  ancestry_path repo path ∧ (∃ tip, last path = Some tip ∧ oid tip = target_oid) ∧
  ∃ path0, path0 ∈ queue ∧ head path = head path0.
Proof.
  revert queue. induction fuel as [|fuel IH]; intros queue Hall H.
  - by destruct queue.
  - destruct queue as [|path0 queue]; [done|]. simpl in H.
    apply Forall_cons in Hall as [Hpath0 Hall].
    destruct (last path0) as [tip|] eqn:Hlast; [|done].
    destruct (decide (oid tip = target_oid)) as [Htip|Htip].
    { inversion H; subst. split; [done|]. split; [by exists tip|].
      exists path. split; [by left | done]. }
    destruct (decide (Some (oid tip) = merge_base_oid)).
    { destruct (IH _ Hall H) as (? & ? & p & ? & ?). split; [done|]. split; [done|].
      exists p. split; [by right | done]. }
    destruct (commit_parents repo tip) as [parents| |] eqn:Hparents; simpl in H; [|done..].
    assert (Forall (ancestry_path repo)
              (queue ++ ((λ parent, path0 ++ [parent]) <$> parents))) as Hall'.
    { apply Forall_app. split; [done|]. apply Forall_fmap, Forall_forall.
      intros c Hc. simpl. destruct (commit_parents_Ok _ _ _ _ Hparents Hc).
      by eapply ancestry_step. }
    destruct (IH _ Hall' H) as (Hpath & Hend & p & Hp & Hhead).
    split; [done|]. split; [done|].
    apply elem_of_app in Hp as [Hp | Hp].
    + exists p. split; [by right | done].
    + apply list_elem_of_fmap in Hp as (c & -> & Hc). exists path0. split; [by left|].
      rewrite Hhead. destruct (ancestry_path_head _ _ Hpath0) as [c0 Hc0].
      by rewrite (head_snoc _ _ _ Hc0).
Qed.

Lemma ancestry_path_stored (repo : Repository) (path : list Commit) :
  ancestry_path repo path → Forall (λ c, repo_get repo (oid c) = Ok c) path.
Proof.
  induction 1 as [c Hc | path tip c _ IH _ _ Hc].
  - by apply Forall_singleton.
  - apply Forall_app. split; [done | by apply Forall_singleton].
Qed.

Lemma find_path_to_merge_base_ancestry (repo : Repository) (merge_base_db : MergeBaseDb)
    (fuel : nat) (commit_oid target_oid : Oid) (path : list Commit) :
  find_path_to_merge_base fuel repo merge_base_db commit_oid target_oid = Ok (Some path) →
  ancestry_path repo path ∧
  (∃ c, head path = Some c ∧ oid c = commit_oid) ∧
  (∃ tip, last path = Some tip ∧ oid tip = target_oid).
Proof.
  unfold find_path_to_merge_base. intros H.
  destruct (repo_get repo commit_oid) as [start| |] eqn:Hstart; simpl in H; [|done..].
  apply repo_get_Ok in Hstart as Hoid. destruct Hoid as [Hoid _].
  apply find_path_loop_ancestry in H as (Hpath & Hend & p & Hp & Hhead).
  - apply list_elem_of_singleton in Hp as ->. split; [done|]. split; [|done].
    exists start. by rewrite Hhead.
  - apply Forall_singleton. constructor. by rewrite Hoid.
Qed.

(** The graph before the linking pass: every node is unlinked and holds the
    stored commit of its key. *)
Definition walked (repo : Repository) (graph : CommitGraph) : Prop :=
  ∀ k n, graph !! k = Some n →
    parent n = None ∧ children n = ∅ ∧ repo_get repo k = Ok (commit n).

Lemma add_path_walked (repo : Repository) (event_replayer : EventReplayer)
    (merge_base_oid : option Oid) (path : list Commit) (graph : CommitGraph) :
  walked repo graph → Forall (λ c, repo_get repo (oid c) = Ok c) path →
  walked repo (add_path event_replayer merge_base_oid path graph).
Proof.
  revert graph. induction path as [|c path IH]; intros graph Hg Hall; [done|].
  apply Forall_cons in Hall as [Hc Hall]. simpl.
  case_decide; [done|]. apply IH; [|done].
  intros k n [[<- <-] | [_ Hk]]%lookup_insert_Some; [done | by apply Hg].
Qed.

Lemma walk_commit_walked (fuel : nat) (repo : Repository) (merge_base_db : MergeBaseDb)
    (event_replayer : EventReplayer) (master_oid c : Oid) (graph graph' : CommitGraph) :
  walked repo graph →
  walk_commit fuel repo merge_base_db event_replayer master_oid c graph = Ok graph' →
  walked repo graph'.
Proof.
  unfold walk_commit. intros Hg H.
  destruct (repo_get repo c) as [cc| |] eqn:Hcc; simpl in H; [|done..].
  apply repo_get_Ok in Hcc as Hoid. destruct Hoid as [Hoid _].
  destruct (merge_base_db (oid cc) master_oid) as [mb|].
  - destruct (find_path_to_merge_base _ _ _ _ _) as [[path|]| |] eqn:Hpath;
      simpl in H; inversion H; subst; [|done].
    apply add_path_walked; [done|].
    apply find_path_to_merge_base_ancestry in Hpath as [Hpath _].
    by apply ancestry_path_stored.
  - inversion H; subst.
    apply (add_path_walked repo event_replayer None [cc] graph); [done|].
    by apply Forall_singleton.
Qed.

Lemma walk_loop_walked (fuel : nat) (repo : Repository) (merge_base_db : MergeBaseDb)
    (event_replayer : EventReplayer) (master_oid : Oid) (commit_oids : list Oid)
    (graph graph' : CommitGraph) :
  walked repo graph →
  walk_loop fuel repo merge_base_db event_replayer master_oid commit_oids graph
    = Ok graph' →
  walked repo graph'.
Proof.
  revert graph. induction commit_oids as [|c cs IH]; intros graph Hg H; simpl in H.
  - by inversion H; subst.
  - destruct (walk_commit _ _ _ _ _ _ _) as [g1| |] eqn:Hc; simpl in H; [|done..].
    eapply IH; [|exact H]. by eapply walk_commit_walked.
Qed.

(** ** Graphs produced by [_walk_from_commits] *)

(** [graph] is the linking of a graph [g0] left by the walk. *)
Definition built (repo : Repository) (graph : CommitGraph) : Prop :=
  ∃ g0, walked repo g0 ∧ ∀ k, graph !! k = linked_node g0 g0 k <$> g0 !! k.

Lemma walk_from_commits_built (iter : gset Oid → list Oid) (fuel : nat)
    (repo : Repository) (merge_base_db : MergeBaseDb) (event_replayer : EventReplayer)
    (master_oid : Oid) (commit_oids : gset Oid) (graph : CommitGraph) :
  _walk_from_commits iter fuel repo merge_base_db event_replayer master_oid commit_oids
    = Ok graph →
  built repo graph.
Proof.
  unfold _walk_from_commits. intros H.
  destruct (walk_loop _ _ _ _ _ _ _) as [g0| |] eqn:Hwalk; simpl in H; [|done..].
  apply walk_loop_walked in Hwalk; [|by intros k n ?%lookup_empty_Some].
  destruct (link_pass_lookup g0) as (g1 & Hg1 & Hlook).
  { intros k n Hk. destruct (Hwalk _ _ Hk) as (? & ? & _). done. }
  exists g0. split; [done|]. by assert (graph = g1) as -> by congruence.
Qed.

(** The linking pass never raises after a walk. *)
Lemma walk_from_commits_links (iter : gset Oid → list Oid) (fuel : nat)
    (repo : Repository) (merge_base_db : MergeBaseDb) (event_replayer : EventReplayer)
    (master_oid : Oid) (commit_oids : gset Oid) (g0 : CommitGraph) :
  walk_loop fuel repo merge_base_db event_replayer master_oid (iter commit_oids) ∅
    = Ok g0 →
  ∃ graph,
    _walk_from_commits iter fuel repo merge_base_db event_replayer master_oid commit_oids
      = Ok graph.
Proof.
  intros Hwalk. unfold _walk_from_commits. rewrite Hwalk. simpl.
  apply walk_loop_walked in Hwalk; [|by intros k n ?%lookup_empty_Some].
  destruct (link_pass_lookup g0) as (g1 & Hg1 & _); [|by exists g1].
  intros k n Hk. destruct (Hwalk _ _ Hk) as (? & ? & _). done.
Qed.

Section Built.

Variable repo : Repository.
Variable graph : CommitGraph.
Hypothesis graph_built : built repo graph.

Lemma built_stored (k : Oid) (n : Node) :
  graph !! k = Some n → repo_get repo k = Ok (commit n).
Proof.
  destruct graph_built as (g0 & Hwalked & Hlook). rewrite Hlook.
  intros (n0 & Hn0 & ->)%fmap_Some. simpl. by apply Hwalked.
Qed.

(** The pass records as parent the last VCS parent that is a key. *)
Lemma built_parent_last (k : Oid) (n : Node) :
  graph !! k = Some n →
  parent n = if is_master n then None
             else last (parents_in_graph graph (parent_ids (commit n))).
Proof.
  destruct graph_built as (g0 & Hwalked & Hlook). rewrite Hlook.
  intros (n0 & Hn0 & ->)%fmap_Some. unfold linked_node.
  cbn [parent is_master commit]. rewrite Hn0. cbn [mbind option_bind].
  unfold linked_parent. destruct (is_master n0); [done|].
  f_equal. apply parents_in_graph_ext. intros p. rewrite Hlook.
  by rewrite fmap_is_Some.
Qed.

(** A children set holds exactly the non-trunk nodes whose commit has the
    key among its VCS parents. *)
Lemma built_children (k c : Oid) (n : Node) :
  graph !! k = Some n →
  c ∈ children n ↔
  ∃ nc, graph !! c = Some nc ∧ is_master nc = false ∧ k ∈ parent_ids (commit nc).
Proof.
  destruct graph_built as (g0 & Hwalked & Hlook). rewrite Hlook.
  intros (n0 & Hn0 & ->)%fmap_Some. simpl. rewrite elem_of_linked_children.
  setoid_rewrite Hlook. setoid_rewrite fmap_Some. split.
  - intros (nc & Hnc & ? & ?). exists (linked_node g0 g0 c nc). split; [|done]. eauto.
  - intros (nc & (n0c & Hn0c & ->) & ? & ?). by exists n0c.
Qed.

Lemma built_master_no_parent (k : Oid) (n : Node) :
  graph !! k = Some n → is_master n = true → parent n = None.
Proof. intros Hk Hm. rewrite (built_parent_last _ _ Hk). by rewrite Hm. Qed.

Lemma built_parent (k p : Oid) (n : Node) :
  graph !! k = Some n → parent n = Some p →
  is_master n = false ∧ p ∈ parent_ids (commit n) ∧
  ∃ np, graph !! p = Some np ∧ k ∈ children np.
Proof.
  intros Hk Hp. rewrite (built_parent_last _ _ Hk) in Hp.
  destruct (is_master n) eqn:Hm; [done|]. split; [done|].
  apply last_Some_elem_of, elem_of_parents_in_graph in Hp as [Hin [np Hnp]].
  split; [done|]. exists np. split; [done|].
  apply (built_children _ _ _ Hnp). by exists n.
Qed.

Lemma built_child (k c : Oid) (n : Node) :
  graph !! k = Some n → c ∈ children n →
  ∃ nc, graph !! c = Some nc ∧ is_master nc = false ∧
        k ∈ parent_ids (commit nc) ∧ is_Some (parent nc).
Proof.
  intros Hk Hc. apply (built_children _ _ _ Hk) in Hc as (nc & Hnc & Hm & Hin).
  exists nc. repeat split; try done.
  rewrite (built_parent_last _ _ Hnc), Hm. apply last_is_Some.
  intros Hnil. assert (k ∈ parents_in_graph graph (parent_ids (commit nc))) as Hk'.
  { apply elem_of_parents_in_graph. split; [done | by eexists]. }
  rewrite Hnil in Hk'. by apply elem_of_nil in Hk'.
Qed.


End Built.

(** ** Merge commits in the graph *)

(** The trunk [T -> M1], a feature commit [X1 -> M1], and the merge [P] of
    [X1] with the trunk tip [T]; [P] was hidden afterwards. *)
Module MergedTrunk.

Definition repo : Repository :=
  mkRepository
    (<["M1" := []]> (<["T" := ["M1"]]> (<["X1" := ["M1"]]> (<["P" := ["X1"; "T"]]> ∅))))
    (<["master" := "T"]> ∅)
    (Some "T").

(** The merge-bases of this history that the construction asks for. *)
Definition merge_base_db : MergeBaseDb :=
  λ lhs rhs,
    if decide (lhs = rhs) then Some lhs
    else if decide (lhs = "P") then Some "T"
    else Some "M1".

Definition event_replayer : EventReplayer :=
  mkEventReplayer (λ o, if decide (o = "P") then Some Hidden else None)
                  (λ _, None) {["X1"; "P"]}.

Definition node_M1 : Node := mkNode (mkCommit "M1" []) None {["X1"]} true true None.
Definition node_T (cs : gset Oid) : Node :=
  mkNode (mkCommit "T" ["M1"]) None cs true true None.
Definition node_X1 : Node :=
  mkNode (mkCommit "X1" ["M1"]) (Some "M1") {["P"]} false true None.
Definition node_P : Node :=
  mkNode (mkCommit "P" ["X1"; "T"]) (Some "T") ∅ false false None.

Definition rank (o : Oid) : nat :=
  if decide (o = "M1") then 0
  else if decide (o = "P") then 2
  else 1.

(** The graph before pruning. *)
Definition graph : CommitGraph :=
  <["M1" := node_M1]> (<["T" := node_T {["P"]}]>
  (<["X1" := node_X1]> (<["P" := node_P]> ∅))).

(** The graph after pruning. *)
Definition pruned : CommitGraph :=
  <["M1" := node_M1]> (<["T" := node_T ∅]> (<["X1" := node_X1]> ∅)).

End MergedTrunk.

(** A trunk that contains a merge commit [T] of [M0] and the branch [F]. *)
Module TrunkMerge.

Definition repo : Repository :=
  mkRepository
    (<["M0" := []]> (<["F" := ["M0"]]> (<["T" := ["M0"; "F"]]> (<["X0" := ["M0"]]> ∅))))
    (<["master" := "T"]> (<["feature" := "F"]> (<["old" := "X0"]> ∅)))
    (Some "T").

Definition merge_base_db : MergeBaseDb :=
  λ lhs rhs,
    if decide (lhs = rhs) then Some lhs
    else if decide (lhs = "F") then Some "F"
    else Some "M0".

Definition event_replayer : EventReplayer :=
  mkEventReplayer (λ _, None) (λ _, None) ∅.

Definition node_M0 : Node := mkNode (mkCommit "M0" []) None {["X0"]} true true None.
Definition node_F : Node := mkNode (mkCommit "F" ["M0"]) None ∅ true true None.
Definition node_T : Node := mkNode (mkCommit "T" ["M0"; "F"]) None ∅ true true None.
Definition node_X0 : Node :=
  mkNode (mkCommit "X0" ["M0"]) (Some "M0") ∅ false true None.

Definition graph : CommitGraph :=
  <["M0" := node_M0]> (<["F" := node_F]> (<["T" := node_T]> (<["X0" := node_X0]> ∅))).

End TrunkMerge.

Example merged_trunk_built :
  _walk_from_commits elements 6 MergedTrunk.repo MergedTrunk.merge_base_db
      MergedTrunk.event_replayer "T" {["X1"; "P"; "T"]}
    = Ok MergedTrunk.graph.
Proof. vm_compute. reflexivity. Qed.

(** C3: pruning leaves a dangling child.  [make_graph] on the merged trunk
    removes the hidden merge commit [P] and takes it out of the children of
    its recorded parent [T] only: the surviving node [X1] keeps [P] in its
    children although [P] is no longer a key. *)
Theorem hide_commits_leaves_dangling_child :
  make_graph elements 6 MergedTrunk.repo MergedTrunk.merge_base_db
      MergedTrunk.event_replayer "T" false
    = Ok ("T", MergedTrunk.graph) ∧
  make_graph elements 6 MergedTrunk.repo MergedTrunk.merge_base_db
      MergedTrunk.event_replayer "T" true
    = Ok ("T", MergedTrunk.pruned) ∧
  MergedTrunk.pruned !! "X1" = Some MergedTrunk.node_X1 ∧
  "P" ∈ children MergedTrunk.node_X1 ∧
  MergedTrunk.pruned !! "P" = None.
Proof. repeat split; first [vm_compute; reflexivity | set_solver]. Qed.




(** ** Trunk nodes and connected components *)

(** [a] and [b] are linked: one names the other as parent or as child. *)
Definition adjacent (graph : CommitGraph) (a b : Oid) : Prop :=
  ∃ na, graph !! a = Some na ∧ (parent na = Some b ∨ b ∈ children na).

(** [a] and [b] lie in one connected component. *)
Definition connected (graph : CommitGraph) (a b : Oid) : Prop :=
  rtsc (adjacent graph) a b.

(** [x] names [y] as its parent. *)
Definition parent_edge (graph : CommitGraph) (x y : Oid) : Prop :=
  ∃ nx, graph !! x = Some nx ∧ parent nx = Some y.

(** [r] is the end of the chain of parent links that starts at [x]. *)
Definition root_of (graph : CommitGraph) (x r : Oid) : Prop :=
  rtc (parent_edge graph) x r ∧ ∃ nr, graph !! r = Some nr ∧ parent nr = None.

Lemma root_of_parent_edge (graph : CommitGraph) (x y r : Oid) :
  parent_edge graph x y → root_of graph x r ↔ root_of graph y r.
Proof.
  intros (nx & Hx & Hxy). split; intros [Hrtc Hroot].
  - split; [|done]. inversion Hrtc as [|? y' ? (nx' & Hx' & Hxy') Hrest]; subst.
    + destruct Hroot as (nr & Hr & Hnone). congruence.
    + by assert (y' = y) as -> by congruence.
  - split; [|done]. eapply rtc_l; [|done]. by exists nx.
Qed.

(** C9, as stated, fails: on the merged trunk, the trunk nodes [M1] and [T]
    lie in one connected component, through [X1] and the merge commit [P]
    that is a child of both [X1] and [T]. *)
Lemma two_trunk_nodes_in_one_component :
  ∃ graph nM1 nT,
    _walk_from_commits elements 6 MergedTrunk.repo MergedTrunk.merge_base_db
        MergedTrunk.event_replayer "T" {["X1"; "P"; "T"]} = Ok graph ∧
    graph !! "M1" = Some nM1 ∧ is_master nM1 = true ∧
    graph !! "T" = Some nT ∧ is_master nT = true ∧
    "M1" ≠ "T" ∧ connected graph "M1" "T".
Proof.
  exists MergedTrunk.graph, MergedTrunk.node_M1, (MergedTrunk.node_T {["P"]}).
  split; [vm_compute; reflexivity|].
  split; [vm_compute; reflexivity|]. split; [done|].
  split; [vm_compute; reflexivity|]. split; [done|]. split; [done|].
  unfold connected.
  apply (rtc_l _ _ "X1").
  { left. exists MergedTrunk.node_M1. split; [vm_compute; reflexivity|]. right.
    set_solver. }
  apply (rtc_l _ _ "P").
  { left. exists MergedTrunk.node_X1. split; [vm_compute; reflexivity|]. right.
    set_solver. }
  apply (rtc_l _ _ "T"); [|apply rtc_refl].
  left. exists MergedTrunk.node_P. split; [vm_compute; reflexivity|]. by left.
Qed.

(** C9, amended: in a graph produced by [_walk_from_commits] no trunk node
    has a parent; and when no node other than a trunk node has two VCS
    parents that are keys of the graph, two trunk nodes of one connected
    component are the same node. *)
Theorem trunk_nodes_are_roots (iter : gset Oid → list Oid) (fuel : nat)
    (repo : Repository) (merge_base_db : MergeBaseDb) (event_replayer : EventReplayer)
    (master_oid : Oid) (commit_oids : gset Oid) (graph : CommitGraph) :
  _walk_from_commits iter fuel repo merge_base_db event_replayer master_oid commit_oids
    = Ok graph →
  (∀ k n, graph !! k = Some n → is_master n = true → parent n = None) ∧
  (map_Forall (λ _ nc, is_master nc = false →
                 length (parents_in_graph graph (parent_ids (commit nc))) ≤ 1) graph →
   ∀ a b na nb,
     graph !! a = Some na → is_master na = true →
     graph !! b = Some nb → is_master nb = true →
     connected graph a b → a = b).
Proof.
  intros Hbuilt%walk_from_commits_built.
  split; [by apply (built_master_no_parent repo)|].
  intros Hsingle a b na nb Ha Hma Hb Hmb Hconn.
  assert (∀ x y, adjacent graph x y → parent_edge graph x y ∨ parent_edge graph y x)
    as Hadj.
  { intros x y (nx & Hx & [Hp | Hc]); [left; by exists nx|]. right.
    destruct (built_child repo graph Hbuilt _ _ _ Hx Hc) as (ny & Hy & Hmy & Hin & _).
    exists ny. split; [done|].
    rewrite (built_parent_last repo graph Hbuilt _ _ Hy), Hmy.
    pose proof (Hsingle _ _ Hy Hmy) as Hlen. simpl in Hlen.
    assert (x ∈ parents_in_graph graph (parent_ids (commit ny))) as Hx'.
    { apply elem_of_parents_in_graph. split; [done | by eexists]. }
    destruct (parents_in_graph graph (parent_ids (commit ny))) as [|p [|p' l]];
      simpl in *; [by apply elem_of_nil in Hx' | | lia].
    by apply list_elem_of_singleton in Hx' as ->. }
  assert (∀ r, root_of graph a r ↔ root_of graph b r) as Hroots.
  { unfold connected, rtsc in Hconn. clear Ha Hb Hma Hmb.
    induction Hconn as [|x y z Hstep _ IH]; [done|].
    intros r. rewrite <- IH.
    destruct Hstep as [Hstep | Hstep]; apply Hadj in Hstep as [He | He].
    - by apply root_of_parent_edge.
    - symmetry. by apply root_of_parent_edge.
    - symmetry. by apply root_of_parent_edge.
    - by apply root_of_parent_edge. }
  assert (root_of graph a a) as Hra.
  { split; [apply rtc_refl|]. exists na. split; [done|].
    by apply (built_master_no_parent repo graph Hbuilt a). }
  apply Hroots in Hra as [Hrtc _].
  inversion Hrtc as [|? y ? (nb' & Hb' & Hpar) _]; subst; [done|].
  pose proof (built_master_no_parent repo graph Hbuilt b nb Hb Hmb). congruence.
Qed.

Lemma trunk_nodes_are_roots_witness :
  (∀ k n, Scenario.graph !! k = Some n → is_master n = true → parent n = None) ∧
  (∀ a b na nb,
     Scenario.graph !! a = Some na → is_master na = true →
     Scenario.graph !! b = Some nb → is_master nb = true →
     connected Scenario.graph a b → a = b).
Proof.
  destruct (trunk_nodes_are_roots elements 6 Scenario.repo Scenario.merge_base_db
              (Scenario.event_replayer ∅) "M" {["M"; "C"]} Scenario.graph)
    as [Hroots Hunique].
  - vm_compute. reflexivity.
  - split; [exact Hroots|]. apply Hunique.
    refine (bool_decide_unpack _ _). vm_compute. exact I.
Defined.

(** ** Pruning a built graph *)

Lemma should_hide_S (iter : gset Oid → list Oid) (fuel : nat) (graph : CommitGraph)
    (unhideable_oids : gset Oid) (o : Oid) :
  should_hide iter (S fuel) graph unhideable_oids o =
    if decide (o ∈ unhideable_oids) then Ok false
    else
      node ← graph_get graph o;
      if is_master node then
        if is_visible node then
          all_m (λ child_oid,
                   child ← graph_get graph child_oid;
                   if is_master child then Ok true
                   else should_hide iter fuel graph unhideable_oids child_oid)
                (iter (children node))
        else Ok false
      else
        if negb (is_visible node) then
          all_m (should_hide iter fuel graph unhideable_oids) (iter (children node))
        else Ok false.
Proof. done. Qed.


Section PruneBuilt.

Variable iter : gset Oid → list Oid.
Hypothesis iter_elem_of : ∀ (s : gset Oid) (x : Oid), x ∈ iter s ↔ x ∈ s.
Hypothesis iter_NoDup : ∀ s : gset Oid, NoDup (iter s).

Variable repo : Repository.
Variable rank : Oid → nat.
Hypothesis repo_is_ranked : repo_ranked repo rank.

Variable graph : CommitGraph.
Hypothesis graph_built : built repo graph.

Variable unhideable_oids : gset Oid.







End PruneBuilt.



Example merged_trunk_pruned_twice :
  _hide_commits elements 6 MergedTrunk.graph {["T"]} "T" = (Ok (), MergedTrunk.pruned) ∧
  _hide_commits elements 6 MergedTrunk.pruned {["T"]} "T" = (Ok (), MergedTrunk.pruned).
Proof. split; vm_compute; reflexivity. Qed.

(** ** The scenario: hidden commits below a checked-out branch tip *)

Section IterSmall.

Variable iter : gset Oid → list Oid.
Hypothesis iter_elem_of : ∀ (s : gset Oid) (x : Oid), x ∈ iter s ↔ x ∈ s.
Hypothesis iter_NoDup : ∀ s : gset Oid, NoDup (iter s).

Lemma iter_empty : iter ∅ = [].
Proof.
  destruct (iter ∅) as [|x l] eqn:Hl; [done|].
  assert (x ∈ (∅ : gset Oid)) as Hx by (apply iter_elem_of; rewrite Hl; by left).
  set_solver.
Qed.

Lemma iter_singleton (x : Oid) : iter {[x]} = [x].
Proof.
  pose proof (iter_NoDup {[x]}) as Hnodup.
  assert (∀ y, y ∈ iter {[x]} ↔ y = x) as Hin.
  { intros y. rewrite iter_elem_of. set_solver. }
  destruct (iter {[x]}) as [|a [|b l]].
  - pose proof (proj2 (Hin x) eq_refl) as Hx. by apply elem_of_nil in Hx.
  - f_equal. apply Hin. by left.
  - assert (a = x) as -> by (apply Hin; by left).
    assert (b = x) as -> by (apply Hin; right; by left).
    apply NoDup_cons in Hnodup as [Hnotin _]. destruct Hnotin. by left.
Qed.

Lemma iter_pair (x y : Oid) : x ≠ y → iter {[x; y]} = [x; y] ∨ iter {[x; y]} = [y; x].
Proof.
  intros Hne. pose proof (iter_NoDup {[x; y]}) as Hnodup.
  assert (∀ z, z ∈ iter {[x; y]} ↔ z = x ∨ z = y) as Hin.
  { intros z. rewrite iter_elem_of. set_solver. }
  destruct (iter {[x; y]}) as [|a [|b [|c l]]].
  - pose proof (proj2 (Hin x) (or_introl eq_refl)) as Hx. by apply elem_of_nil in Hx.
  - pose proof (proj2 (Hin x) (or_introl eq_refl)) as Hx.
    pose proof (proj2 (Hin y) (or_intror eq_refl)) as Hy.
    apply list_elem_of_singleton in Hx, Hy. congruence.
  - assert (a = x ∨ a = y) as Ha by (apply Hin; by left).
    assert (b = x ∨ b = y) as Hb by (apply Hin; right; by left).
    apply NoDup_cons in Hnodup as [Hab%not_elem_of_cons _].
    destruct Ha as [-> | ->], Hb as [-> | ->]; naive_solver.
  - assert (a = x ∨ a = y) as Ha by (apply Hin; by left).
    assert (b = x ∨ b = y) as Hb by (apply Hin; right; by left).
    assert (c = x ∨ c = y) as Hc by (apply Hin; right; right; by left).
    apply NoDup_cons in Hnodup as [Ha' Hnodup].
    apply NoDup_cons in Hnodup as [Hb' _].
    apply not_elem_of_cons in Ha' as [Hab [Hac _]%not_elem_of_cons].
    apply not_elem_of_cons in Hb' as [Hbc _].
    destruct Ha as [-> | ->], Hb as [-> | ->], Hc as [-> | ->]; done.
Qed.

End IterSmall.

Lemma filter_m_all_false (f : Oid → result bool) (l : list Oid) :
  (∀ x, x ∈ l → f x = Ok false) → filter_m f l = Ok ∅.
Proof.
  induction l as [|x l IH]; intros H; [done|]. simpl.
  rewrite (H x) by (by left). simpl. rewrite IH; [done|].
  intros y Hy. apply H. by right.
Qed.

Lemma make_graph_hiding (iter : gset Oid → list Oid) (fuel : nat) (repo : Repository)
    (merge_base_db : MergeBaseDb) (event_replayer : EventReplayer)
    (master_oid head_oid : Oid) (commit_oids : gset Oid) (graph graph' : CommitGraph) :
  HEAD repo = Some head_oid →
  get_active_oids event_replayer ∪ map_img (local_branches repo) ∪ {[head_oid]}
    = commit_oids →
  _walk_from_commits iter fuel repo merge_base_db event_replayer master_oid commit_oids
    = Ok graph →
  _hide_commits iter fuel graph (map_img (local_branches repo)) head_oid
    = (Ok (), graph') →
  make_graph iter fuel repo merge_base_db event_replayer master_oid true
    = Ok (head_oid, graph').
Proof.
  intros Hhead Hcommits Hwalk Hhide. unfold make_graph.
  rewrite Hhead. cbv zeta. rewrite Hcommits, Hwalk. cbn [mbind result_bind].
  by rewrite Hhide.
Qed.

Section ScenarioFacts.

Variable iter : gset Oid → list Oid.
Hypothesis iter_elem_of : ∀ (s : gset Oid) (x : Oid), x ∈ iter s ↔ x ∈ s.
Hypothesis iter_NoDup : ∀ s : gset Oid, NoDup (iter s).

Lemma scenario_walk (active : gset Oid) (fuel : nat) :
  5 ≤ fuel →
  _walk_from_commits iter fuel Scenario.repo Scenario.merge_base_db
    (Scenario.event_replayer active) "M" {["M"; "C"]} = Ok Scenario.graph.
Proof.
  intros Hfuel. unfold _walk_from_commits.
  destruct (walk_loop 5 Scenario.repo Scenario.merge_base_db
              (Scenario.event_replayer active) "M" ["M"; "C"] ∅) as [g0| |] eqn:Hg0;
    [|vm_compute in Hg0; done..].
  assert (walk_loop 5 Scenario.repo Scenario.merge_base_db
            (Scenario.event_replayer active) "M" ["C"; "M"] ∅ = Ok g0) as Hg0'.
  { rewrite <- Hg0. vm_compute. reflexivity. }
  assert (link_pass g0 = Ok Scenario.graph) as Hlink.
  { vm_compute in Hg0. inversion Hg0; subst. vm_compute. reflexivity. }
  destruct (iter_pair iter iter_elem_of iter_NoDup "M" "C") as [-> | ->]; [done|..].
  - rewrite (walk_loop_mono _ _ _ _ 5 fuel _ _ _ Hfuel Hg0). exact Hlink.
  - rewrite (walk_loop_mono _ _ _ _ 5 fuel _ _ _ Hfuel Hg0'). exact Hlink.
Qed.

(** Nothing is hidden: [C] is pinned, and so are its ancestors [B] and [A],
    whose child is not hidden; [M] is a branch tip. *)
Lemma scenario_should_hide (fuel : nat) (o : Oid) :
  3 ≤ fuel → o ∈ dom Scenario.graph →
  should_hide iter fuel Scenario.graph {["M"; "C"]} o = Ok false.
Proof.
  intros Hfuel Ho.
  assert (∀ f, should_hide iter (S f) Scenario.graph {["M"; "C"]} "C" = Ok false) as HC.
  { intros f. rewrite should_hide_S. rewrite decide_True by set_solver. done. }
  assert (∀ f, should_hide iter (S f) Scenario.graph {["M"; "C"]} "M" = Ok false) as HM.
  { intros f. rewrite should_hide_S. rewrite decide_True by set_solver. done. }
  assert (∀ f, should_hide iter (S (S f)) Scenario.graph {["M"; "C"]} "B" = Ok false)
    as HB.
  { intros f. rewrite should_hide_S. rewrite decide_False by set_solver.
    change (graph_get Scenario.graph "B") with (Ok Scenario.node_B).
    cbn [mbind result_bind Scenario.node_B is_master is_visible children negb].
    rewrite (iter_singleton iter iter_elem_of iter_NoDup).
    cbn [all_m]. by rewrite HC. }
  assert (∀ f, should_hide iter (S (S (S f))) Scenario.graph {["M"; "C"]} "A" = Ok false)
    as HA.
  { intros f. rewrite should_hide_S. rewrite decide_False by set_solver.
    change (graph_get Scenario.graph "A") with (Ok Scenario.node_A).
    cbn [mbind result_bind Scenario.node_A is_master is_visible children negb].
    rewrite (iter_singleton iter iter_elem_of iter_NoDup).
    cbn [all_m]. by rewrite HB. }
  destruct fuel as [|[|[|f]]]; [lia..|].
  unfold Scenario.graph in Ho. rewrite !dom_insert_L, dom_empty_L in Ho.
  assert (o = "M" ∨ o = "A" ∨ o = "B" ∨ o = "C") as [-> | [-> | [-> | ->]]]
    by set_solver; auto.
Qed.

Lemma scenario_hide (fuel : nat) :
  3 ≤ fuel →
  _hide_commits iter fuel Scenario.graph {["M"; "C"]} "C" = (Ok (), Scenario.graph).
Proof.
  intros Hfuel. unfold _hide_commits.
  replace ({["M"; "C"]} ∪ {["C"]} : gset Oid) with ({["M"; "C"]} : gset Oid)
    by set_solver.
  rewrite filter_m_all_false.
  - by rewrite (iter_empty iter iter_elem_of).
  - intros o Ho%iter_elem_of. by apply scenario_should_hide.
Qed.

End ScenarioFacts.

(** C2, as stated, fails: whatever the fuel, the graph that [make_graph]
    returns for the scenario does not have the key set [{M, C}] with [C]
    lacking a parent. *)
Lemma scenario_is_not_trunk_and_tip_only :
  ¬ ∃ fuel graph,
      make_graph elements fuel Scenario.repo Scenario.merge_base_db
        (Scenario.event_replayer ∅) "M" true = Ok ("C", graph) ∧
      dom graph = {["M"; "C"]} ∧ parent <$> graph !! "C" = Some None.
Proof.
  intros (fuel & graph & Hrun & Hdom & _).
  assert (make_graph elements 6 Scenario.repo Scenario.merge_base_db
            (Scenario.event_replayer ∅) "M" true = Ok ("C", Scenario.graph)) as Hsix
    by (vm_compute; reflexivity).
  apply (make_graph_mono elements fuel (fuel `max` 6)) in Hrun; [|lia].
  apply (make_graph_mono elements 6 (fuel `max` 6)) in Hsix; [|lia].
  rewrite Hsix in Hrun. inversion Hrun; subst graph.
  assert ("A" ∈ dom Scenario.graph) as HA.
  { unfold Scenario.graph. rewrite !dom_insert_L. set_solver. }
  rewrite Hdom in HA.
  apply elem_of_union in HA as [HA | HA]; by apply elem_of_singleton in HA.
Qed.

(** C2, amended: for the scenario, [make_graph] with pruning returns [C] as
    HEAD and the graph with the four keys [M], [A], [B], [C], in which [C]
    has the parent [B], [B] the parent [A] and [A] the parent [M]: the
    hidden commits [A] and [B] are kept because their descendant [C] is
    pinned.  This holds for every iteration order of the sets, every set of
    active commits among [M] and [C], and every sufficient fuel. *)
Theorem scenario_keeps_ancestors_of_tip (iter : gset Oid → list Oid)
    (active : gset Oid) (fuel : nat) :
  (∀ (s : gset Oid) (x : Oid), x ∈ iter s ↔ x ∈ s) →
  (∀ s : gset Oid, NoDup (iter s)) →
  active ⊆ {["M"; "C"]} → 5 ≤ fuel →
  make_graph iter fuel Scenario.repo Scenario.merge_base_db
    (Scenario.event_replayer active) "M" true = Ok ("C", Scenario.graph) ∧
  dom Scenario.graph = {["M"; "A"; "B"; "C"]} ∧
  parent <$> Scenario.graph !! "C" = Some (Some "B") ∧
  parent <$> Scenario.graph !! "B" = Some (Some "A") ∧
  parent <$> Scenario.graph !! "A" = Some (Some "M").
Proof.
  intros Hiter Hnodup Hactive Hfuel.
  assert (map_img (local_branches Scenario.repo) = ({["M"; "C"]} : gset Oid)) as Himg.
  { apply set_eq. intros o. rewrite elem_of_map_img. unfold Scenario.repo. simpl.
    rewrite elem_of_union, !elem_of_singleton. split.
    - intros (i & [[_ <-] | [_ [[_ <-] | [_ ?]]%lookup_insert_Some]]%lookup_insert_Some);
        [by left | by right | done].
    - intros [-> | ->]; [exists "master" | exists "feature"]; done. }
  split; [|split; [|repeat split; vm_compute; reflexivity]].
  - apply (make_graph_hiding iter fuel _ _ _ _ "C" {["M"; "C"]} Scenario.graph).
    + reflexivity.
    + rewrite Himg. cbn [get_active_oids Scenario.event_replayer].
      apply set_eq. intros o. split.
      * intros [[Ho | Ho]%elem_of_union | Ho]%elem_of_union;
          [by apply Hactive | done | apply elem_of_union; by right].
      * intros Ho. apply elem_of_union. left. apply elem_of_union. by right.
    + by apply scenario_walk.
    + rewrite Himg. apply scenario_hide; [done..|lia].
  - unfold Scenario.graph. rewrite !dom_insert_L, dom_empty_L. set_solver.
Qed.

Lemma scenario_keeps_ancestors_of_tip_witness :
  make_graph elements 6 Scenario.repo Scenario.merge_base_db
    (Scenario.event_replayer {["C"]}) "M" true = Ok ("C", Scenario.graph) ∧
  dom Scenario.graph = {["M"; "A"; "B"; "C"]} ∧
  parent <$> Scenario.graph !! "C" = Some (Some "B") ∧
  parent <$> Scenario.graph !! "B" = Some (Some "A") ∧
  parent <$> Scenario.graph !! "A" = Some (Some "M").
Proof.
  apply (scenario_keeps_ancestors_of_tip elements {["C"]} 6).
  - intros s x. apply elem_of_elements.
  - intros s. apply NoDup_elements.
  - set_solver.
  - lia.
Defined.

(** ** Further properties of the path search *)

(** X1: whatever the object store and the fuel, a path that
    [find_path_to_merge_base] returns starts at the given commit, ends at the
    target and follows a parent link of the object store at every step. *)
Theorem find_path_sound (repo : Repository) (merge_base_db : MergeBaseDb)
    (fuel : nat) (commit_oid target_oid : Oid) (path : list Commit) :
  find_path_to_merge_base fuel repo merge_base_db commit_oid target_oid
    = Ok (Some path) →
  ancestry_path repo path ∧
  (∃ c, head path = Some c ∧ oid c = commit_oid) ∧
  (∃ tip, last path = Some tip ∧ oid tip = target_oid) ∧
  reachable repo commit_oid target_oid.
Proof.
  intros H. destruct (find_path_to_merge_base_ancestry _ _ _ _ _ _ H)
    as (Hpath & (c & Hhead & Hc) & (tip & Hlast & Htip)).
  repeat split; [done | by exists c | by exists tip |].
  rewrite <- Hc, <- Htip. by eapply ancestry_path_reachable.
Qed.

Lemma find_path_sound_witness :
  ancestry_path Diamond.repo
    [mkCommit "S" ["L1"; "R"]; mkCommit "R" ["T"]; mkCommit "T" []] ∧
  (∃ c, head [mkCommit "S" ["L1"; "R"]; mkCommit "R" ["T"]; mkCommit "T" []] = Some c ∧
        oid c = "S") ∧
  (∃ tip, last [mkCommit "S" ["L1"; "R"]; mkCommit "R" ["T"]; mkCommit "T" []] = Some tip ∧
          oid tip = "T") ∧
  reachable Diamond.repo "S" "T".
Proof.
  apply (find_path_sound Diamond.repo Diamond.merge_base_db 10 "S" "T").
  vm_compute. reflexivity.
Defined.

(** X2: the search for a commit from itself returns the one-commit path at
    once; the search from a commit that is absent from the object store
    raises [KeyError]. *)
Theorem find_path_to_itself (repo : Repository) (merge_base_db : MergeBaseDb)
    (fuel : nat) (o : Oid) :
  (∀ ps, objects repo !! o = Some ps →
     find_path_to_merge_base (S fuel) repo merge_base_db o o
       = Ok (Some [mkCommit o ps])) ∧
  (objects repo !! o = None →
     ∀ target_oid,
       find_path_to_merge_base fuel repo merge_base_db o target_oid = Raise KeyError).
Proof.
  split.
  - intros ps Hps. unfold find_path_to_merge_base, repo_get. rewrite Hps.
    cbn. by rewrite decide_True.
  - intros Hnone target_oid. unfold find_path_to_merge_base, repo_get.
    by rewrite Hnone.
Qed.

(** X3: when the recorded merge-base of the two commits is the start commit
    itself and the target is another commit, the search gives up at once
    and returns absent, without looking at any parent. *)
Theorem find_path_stops_at_merge_base (repo : Repository) (merge_base_db : MergeBaseDb)
    (fuel : nat) (commit_oid target_oid : Oid) :
  is_Some (objects repo !! commit_oid) →
  commit_oid ≠ target_oid →
  merge_base_db commit_oid target_oid = Some commit_oid →
  find_path_to_merge_base (S fuel) repo merge_base_db commit_oid target_oid = Ok None.
Proof.
  intros [ps Hps] Hne Hmb. unfold find_path_to_merge_base, repo_get.
  rewrite Hps, Hmb. cbn. rewrite decide_False by done. rewrite decide_True by done.
  by destruct fuel.
Qed.

Lemma find_path_stops_at_merge_base_witness :
  find_path_to_merge_base 1 ParentChild.repo ParentChild.merge_base_db "B" "A" = Ok None.
Proof.
  apply (find_path_stops_at_merge_base ParentChild.repo ParentChild.merge_base_db 0 "B" "A").
  - vm_compute. eauto.
  - done.
  - reflexivity.
Defined.

Lemma find_path_to_itself_witness :
  (∀ ps, objects ParentChild.repo !! "A" = Some ps →
     find_path_to_merge_base 1 ParentChild.repo ParentChild.merge_base_db "A" "A"
       = Ok (Some [mkCommit "A" ps])) ∧
  (objects ParentChild.repo !! "Z" = None →
     ∀ target_oid,
       find_path_to_merge_base 1 ParentChild.repo ParentChild.merge_base_db "Z" target_oid
         = Raise KeyError).
Proof.
  split.
  - apply (find_path_to_itself ParentChild.repo ParentChild.merge_base_db 0 "A").
  - apply (find_path_to_itself ParentChild.repo ParentChild.merge_base_db 1 "Z").
Defined.

(** ** Further properties of the walk *)

Lemma add_path_subseteq (event_replayer : EventReplayer) (merge_base_oid : option Oid)
    (path : list Commit) (graph : CommitGraph) :
  graph ⊆ add_path event_replayer merge_base_oid path graph.
Proof.
  revert graph. induction path as [|c path IH]; intros graph; [done|]. simpl.
  case_decide as Hc; [done|].
  etrans; [|apply IH]. apply insert_subseteq.
  by apply eq_None_not_Some.
Qed.

Lemma walk_commit_subseteq (fuel : nat) (repo : Repository) (merge_base_db : MergeBaseDb)
    (event_replayer : EventReplayer) (master_oid c : Oid) (graph graph' : CommitGraph) :
  walk_commit fuel repo merge_base_db event_replayer master_oid c graph = Ok graph' →
  graph ⊆ graph'.
Proof.
  unfold walk_commit. intros H.
  destruct (repo_get repo c) as [cc| |]; simpl in H; [|done..].
  destruct (merge_base_db (oid cc) master_oid) as [mb|].
  - destruct (find_path_to_merge_base _ _ _ _ _) as [[path|]| |];
      simpl in H; inversion H; subst; [apply add_path_subseteq | done].
  - inversion H; subst.
    apply (add_path_subseteq event_replayer None [cc] graph).
Qed.

Lemma walk_loop_subseteq (fuel : nat) (repo : Repository)
    (merge_base_db : MergeBaseDb) (event_replayer : EventReplayer)
    (master_oid : Oid) (commit_oids : list Oid) (graph graph' : CommitGraph) :
  walk_loop fuel repo merge_base_db event_replayer master_oid commit_oids graph
    = Ok graph' →
  graph ⊆ graph'.
Proof.
  revert graph. induction commit_oids as [|c cs IH]; intros graph H; simpl in H.
  - by inversion H.
  - destruct (walk_commit _ _ _ _ _ _ _) as [g1| |] eqn:Hc; simpl in H; [|done..].
    etrans; [by eapply walk_commit_subseteq | by apply IH].
Qed.

(** X4: the walk only adds nodes: a node that is in the graph when a commit
    is processed is still there, unchanged, when the loop over the commits
    ends.  In particular the first path that reaches a commit decides
    whether its node is a trunk node. *)
Theorem walk_loop_keeps_nodes (fuel : nat) (repo : Repository)
    (merge_base_db : MergeBaseDb) (event_replayer : EventReplayer)
    (master_oid : Oid) (commit_oids : list Oid) (graph graph' : CommitGraph) :
  walk_loop fuel repo merge_base_db event_replayer master_oid commit_oids graph
    = Ok graph' →
  graph ⊆ graph'.
Proof. apply walk_loop_subseteq. Qed.

Lemma walk_loop_keeps_nodes_witness :
  (<["M" := mkNode (mkCommit "M" []) None ∅ false true None]> ∅ : CommitGraph)
  ⊆ <["M" := mkNode (mkCommit "M" []) None ∅ false true None]>
      (<["X" := mkNode (mkCommit "X" []) None ∅ false true None]> ∅).
Proof.
  apply (walk_loop_keeps_nodes 5 Orphan.repo Orphan.no_merge_base Orphan.event_replayer
           "M" ["X"; "M"] (<["M" := mkNode (mkCommit "M" []) None ∅ false true None]> ∅)).
  vm_compute. reflexivity.
Defined.

Lemma add_path_head (event_replayer : EventReplayer) (merge_base_oid : option Oid)
    (c : Commit) (path : list Commit) (graph : CommitGraph) :
  is_Some (add_path event_replayer merge_base_oid (c :: path) graph !! oid c).
Proof.
  simpl. case_decide as Hc; [done|].
  eapply lookup_weaken_is_Some; [|apply add_path_subseteq].
  rewrite lookup_insert_eq. by eexists.
Qed.

Lemma walk_commit_adds (fuel : nat) (repo : Repository) (merge_base_db : MergeBaseDb)
    (event_replayer : EventReplayer) (master_oid c : Oid) (graph graph' : CommitGraph) :
  walk_commit fuel repo merge_base_db event_replayer master_oid c graph = Ok graph' →
  ¬ (∃ mb, merge_base_db c master_oid = Some mb ∧
           find_path_to_merge_base fuel repo merge_base_db c mb = Ok None) →
  is_Some (graph' !! c).
Proof.
  unfold walk_commit. intros H Hfound.
  destruct (repo_get repo c) as [cc| |] eqn:Hcc; simpl in H; [|done..].
  apply repo_get_Ok in Hcc as [Hoid _]. rewrite Hoid in H.
  destruct (merge_base_db c master_oid) as [mb|] eqn:Hmb.
  - destruct (find_path_to_merge_base _ _ _ _ _) as [[path|]| |] eqn:Hpath;
      simpl in H; inversion H; subst.
    + apply find_path_to_merge_base_ancestry in Hpath as (_ & (c0 & Hhead & Hc0) & _).
      destruct path as [|c1 path]; [done|]. simpl in Hhead. simplify_eq.
      rewrite <- Hc0. apply add_path_head.
    + destruct Hfound. by exists mb.
  - inversion H; subst. apply (add_path_head event_replayer None cc [] graph).
Qed.

Lemma walk_loop_adds (fuel : nat) (repo : Repository) (merge_base_db : MergeBaseDb)
    (event_replayer : EventReplayer) (master_oid c : Oid) (commit_oids : list Oid)
    (graph graph' : CommitGraph) :
  walk_loop fuel repo merge_base_db event_replayer master_oid commit_oids graph
    = Ok graph' →
  c ∈ commit_oids →
  ¬ (∃ mb, merge_base_db c master_oid = Some mb ∧
           find_path_to_merge_base fuel repo merge_base_db c mb = Ok None) →
  is_Some (graph' !! c).
Proof.
  revert graph. induction commit_oids as [|c' cs IH]; intros graph H Hin Hfound.
  - by apply elem_of_nil in Hin.
  - simpl in H.
    destruct (walk_commit _ _ _ _ _ _ _) as [g1| |] eqn:Hc; simpl in H; [|done..].
    apply elem_of_cons in Hin as [-> | Hin]; [|by eapply IH].
    eapply lookup_weaken_is_Some; [|by eapply walk_loop_subseteq].
    by eapply walk_commit_adds.
Qed.

(** A run of [_walk_from_commits] in its two stages. *)
Lemma walk_from_commits_stages (iter : gset Oid → list Oid) (fuel : nat)
    (repo : Repository) (merge_base_db : MergeBaseDb) (event_replayer : EventReplayer)
    (master_oid : Oid) (commit_oids : gset Oid) (graph : CommitGraph) :
  _walk_from_commits iter fuel repo merge_base_db event_replayer master_oid commit_oids
    = Ok graph →
  ∃ g0,
    walk_loop fuel repo merge_base_db event_replayer master_oid (iter commit_oids) ∅
      = Ok g0 ∧
    ∀ k, graph !! k = linked_node g0 g0 k <$> g0 !! k.
Proof.
  unfold _walk_from_commits. intros H.
  destruct (walk_loop _ _ _ _ _ _ _) as [g0| |] eqn:Hwalk; simpl in H; [|done..].
  exists g0. split; [done|].
  pose proof Hwalk as Hwalked.
  apply walk_loop_walked in Hwalked; [|by intros k n ?%lookup_empty_Some].
  destruct (link_pass_lookup g0) as (g1 & Hg1 & Hlook).
  { intros k n Hk. destruct (Hwalked _ _ Hk) as (? & ? & _). done. }
  by assert (graph = g1) as -> by congruence.
Qed.

Lemma walk_from_commits_adds (iter : gset Oid → list Oid) (fuel : nat)
    (repo : Repository) (merge_base_db : MergeBaseDb) (event_replayer : EventReplayer)
    (master_oid : Oid) (commit_oids : gset Oid) (graph : CommitGraph) (c : Oid) :
  (∀ (s : gset Oid) (x : Oid), x ∈ iter s ↔ x ∈ s) →
  _walk_from_commits iter fuel repo merge_base_db event_replayer master_oid commit_oids
    = Ok graph →
  c ∈ commit_oids →
  ¬ (∃ mb, merge_base_db c master_oid = Some mb ∧
           find_path_to_merge_base fuel repo merge_base_db c mb = Ok None) →
  is_Some (graph !! c).
Proof.
  intros Hiter (g0 & Hwalk & Hlook)%walk_from_commits_stages Hin Hfound.
  rewrite Hlook, fmap_is_Some. eapply walk_loop_adds; [done | by apply Hiter | done].
Qed.

(** X5: every interesting commit is a key of the graph that
    [_walk_from_commits] returns, unless it has a merge-base with the trunk
    to which no path was found. *)
Theorem interesting_commits_are_keys (iter : gset Oid → list Oid) (fuel : nat)
    (repo : Repository) (merge_base_db : MergeBaseDb) (event_replayer : EventReplayer)
    (master_oid : Oid) (commit_oids : gset Oid) (graph : CommitGraph) (c : Oid) :
  (∀ (s : gset Oid) (x : Oid), x ∈ iter s ↔ x ∈ s) →
  _walk_from_commits iter fuel repo merge_base_db event_replayer master_oid commit_oids
    = Ok graph →
  c ∈ commit_oids →
  ¬ (∃ mb, merge_base_db c master_oid = Some mb ∧
           find_path_to_merge_base fuel repo merge_base_db c mb = Ok None) →
  is_Some (graph !! c).
Proof. apply walk_from_commits_adds. Qed.

Lemma interesting_commits_are_keys_witness : is_Some (MergedTrunk.graph !! "P").
Proof.
  apply (interesting_commits_are_keys elements 6 MergedTrunk.repo
           MergedTrunk.merge_base_db MergedTrunk.event_replayer "T"
           {["X1"; "P"; "T"]} MergedTrunk.graph "P").
  - intros s x. apply elem_of_elements.
  - vm_compute. reflexivity.
  - apply elem_of_union. left. apply elem_of_union. right. by apply elem_of_singleton.
  - intros (mb & Hmb & Hpath). vm_compute in Hmb.
    injection Hmb as <-. vm_compute in Hpath. discriminate Hpath.
Defined.

(** What the walk records in a node: the visibility and the latest event
    that the event replayer reports for its key, and the trunk flag only for
    the merge-base of one of the commits [cs] with the trunk. *)
Definition recorded (merge_base_db : MergeBaseDb) (event_replayer : EventReplayer)
    (master_oid : Oid) (cs : list Oid) (graph : CommitGraph) : Prop :=
  ∀ k n, graph !! k = Some n →
    is_visible n = resolve_visibility (get_commit_visibility event_replayer k) ∧
    event n = get_commit_latest_event event_replayer k ∧
    (is_master n = true → ∃ c, c ∈ cs ∧ merge_base_db c master_oid = Some k).

Lemma add_path_recorded (merge_base_db : MergeBaseDb) (event_replayer : EventReplayer)
    (master_oid : Oid) (cs : list Oid) (merge_base_oid : option Oid)
    (path : list Commit) (graph : CommitGraph) :
  (∀ mb, merge_base_oid = Some mb → ∃ c, c ∈ cs ∧ merge_base_db c master_oid = Some mb) →
  recorded merge_base_db event_replayer master_oid cs graph →
  recorded merge_base_db event_replayer master_oid cs
    (add_path event_replayer merge_base_oid path graph).
Proof.
  intros Hmb. revert graph. induction path as [|c path IH]; intros graph Hg; [done|].
  simpl. case_decide; [done|]. apply IH.
  intros k n [[<- <-] | [_ Hk]]%lookup_insert_Some; [|by apply Hg].
  simpl. split; [done|]. split; [done|].
  destruct merge_base_oid as [mb|]; [|done].
  intros ->%bool_decide_eq_true. by apply Hmb.
Qed.

Lemma walk_loop_recorded (fuel : nat) (repo : Repository) (merge_base_db : MergeBaseDb)
    (event_replayer : EventReplayer) (master_oid : Oid) (cs commit_oids : list Oid)
    (graph graph' : CommitGraph) :
  commit_oids ⊆ cs →
  recorded merge_base_db event_replayer master_oid cs graph →
  walk_loop fuel repo merge_base_db event_replayer master_oid commit_oids graph
    = Ok graph' →
  recorded merge_base_db event_replayer master_oid cs graph'.
Proof.
  revert graph. induction commit_oids as [|c rest IH]; intros graph Hsub Hg H; simpl in H.
  - by inversion H; subst.
  - destruct (walk_commit _ _ _ _ _ _ _) as [g1| |] eqn:Hc; simpl in H; [|done..].
    eapply IH; [|  |exact H].
    { intros x Hx. apply Hsub. by right. }
    unfold walk_commit in Hc.
    destruct (repo_get repo c) as [cc| |] eqn:Hcc; simpl in Hc; [|done..].
    apply repo_get_Ok in Hcc as [Hoid _]. rewrite Hoid in Hc.
    destruct (merge_base_db c master_oid) as [mb|] eqn:Hmb.
    + destruct (find_path_to_merge_base _ _ _ _ _) as [[path|]| |];
        simpl in Hc; inversion Hc; subst; [|done].
      apply add_path_recorded; [|done].
      intros mb' [= <-]. exists (oid cc). split; [|done]. apply Hsub. by left.
    + inversion Hc; subst.
      by apply (add_path_recorded _ _ _ _ None [cc] graph).
Qed.

(** X6: in the graph that [_walk_from_commits] returns, a node holds the
    stored commit of its key and the latest event that the event replayer
    reports for it, and it is marked not-visible exactly when the replayer
    reports the commit as hidden. *)
Theorem built_nodes_record_replayer (iter : gset Oid → list Oid) (fuel : nat)
    (repo : Repository) (merge_base_db : MergeBaseDb) (event_replayer : EventReplayer)
    (master_oid : Oid) (commit_oids : gset Oid) (graph : CommitGraph)
    (k : Oid) (n : Node) :
  _walk_from_commits iter fuel repo merge_base_db event_replayer master_oid commit_oids
    = Ok graph →
  graph !! k = Some n →
  repo_get repo k = Ok (commit n) ∧
  event n = get_commit_latest_event event_replayer k ∧
  (is_visible n = false ↔ get_commit_visibility event_replayer k = Some Hidden).
Proof.
  intros Hrun Hn. split.
  { eapply built_stored; [by eapply walk_from_commits_built | done]. }
  apply walk_from_commits_stages in Hrun as (g0 & Hwalk & Hlook).
  rewrite Hlook in Hn. apply fmap_Some in Hn as (n0 & Hn0 & ->).
  eapply (walk_loop_recorded _ _ _ _ _ (iter commit_oids)) in Hwalk;
    [|done|by intros ? ? ?%lookup_empty_Some].
  destruct (Hwalk _ _ Hn0) as (Hvis & Hev & _). simpl. split; [done|].
  rewrite Hvis. by destruct (get_commit_visibility event_replayer k) as [[]|].
Qed.

Lemma built_nodes_record_replayer_witness :
  repo_get MergedTrunk.repo "P" = Ok (commit MergedTrunk.node_P) ∧
  event MergedTrunk.node_P = get_commit_latest_event MergedTrunk.event_replayer "P" ∧
  (is_visible MergedTrunk.node_P = false ↔
   get_commit_visibility MergedTrunk.event_replayer "P" = Some Hidden).
Proof.
  apply (built_nodes_record_replayer elements 6 MergedTrunk.repo
           MergedTrunk.merge_base_db MergedTrunk.event_replayer "T"
           {["X1"; "P"; "T"]} MergedTrunk.graph "P" MergedTrunk.node_P).
  - vm_compute. reflexivity.
  - vm_compute. reflexivity.
Defined.

(** X7: a node of the graph that [_walk_from_commits] returns is a trunk
    node only if its key is the merge-base, with the trunk, of one of the
    interesting commits. *)
Theorem trunk_nodes_are_merge_bases (iter : gset Oid → list Oid) (fuel : nat)
    (repo : Repository) (merge_base_db : MergeBaseDb) (event_replayer : EventReplayer)
    (master_oid : Oid) (commit_oids : gset Oid) (graph : CommitGraph)
    (k : Oid) (n : Node) :
  (∀ (s : gset Oid) (x : Oid), x ∈ iter s ↔ x ∈ s) →
  _walk_from_commits iter fuel repo merge_base_db event_replayer master_oid commit_oids
    = Ok graph →
  graph !! k = Some n → is_master n = true →
  ∃ c, c ∈ commit_oids ∧ merge_base_db c master_oid = Some k.
Proof.
  intros Hiter (g0 & Hwalk & Hlook)%walk_from_commits_stages Hn Hm.
  rewrite Hlook in Hn. apply fmap_Some in Hn as (n0 & Hn0 & ->).
  eapply (walk_loop_recorded _ _ _ _ _ (iter commit_oids)) in Hwalk;
    [|done|by intros ? ? ?%lookup_empty_Some].
  destruct (Hwalk _ _ Hn0) as (_ & _ & Hmaster).
  destruct (Hmaster Hm) as (c & Hc & Hmb). exists c. split; [by apply Hiter | done].
Qed.

Lemma trunk_nodes_are_merge_bases_witness :
  ∃ c, c ∈ ({["X1"; "P"; "T"]} : gset Oid) ∧
       MergedTrunk.merge_base_db c "T" = Some "M1".
Proof.
  apply (trunk_nodes_are_merge_bases elements 6 MergedTrunk.repo
           MergedTrunk.merge_base_db MergedTrunk.event_replayer "T"
           {["X1"; "P"; "T"]} MergedTrunk.graph "M1" MergedTrunk.node_M1).
  - intros s x. apply elem_of_elements.
  - vm_compute. reflexivity.
  - vm_compute. reflexivity.
  - reflexivity.
Defined.

(** ** Links of a built graph *)

(** X8: in the graph that [_walk_from_commits] returns (before any pruning),
    a recorded parent is a key of the graph and has the node among its
    children, and every member of a children set is a key of the graph
    whose node is not a trunk node and has a parent recorded. *)
Theorem built_links_are_consistent (iter : gset Oid → list Oid) (fuel : nat)
    (repo : Repository) (merge_base_db : MergeBaseDb) (event_replayer : EventReplayer)
    (master_oid : Oid) (commit_oids : gset Oid) (graph : CommitGraph)
    (k : Oid) (n : Node) :
  _walk_from_commits iter fuel repo merge_base_db event_replayer master_oid commit_oids
    = Ok graph →
  graph !! k = Some n →
  (∀ p, parent n = Some p → ∃ np, graph !! p = Some np ∧ k ∈ children np) ∧
  (∀ c, c ∈ children n →
        ∃ nc, graph !! c = Some nc ∧ is_master nc = false ∧ is_Some (parent nc)).
Proof.
  intros Hbuilt%walk_from_commits_built Hn. split.
  - intros p Hp. by destruct (built_parent repo graph Hbuilt _ _ _ Hn Hp) as (_ & _ & ?).
  - intros c Hc.
    destruct (built_child repo graph Hbuilt _ _ _ Hn Hc) as (nc & ? & ? & _ & ?).
    by exists nc.
Qed.

Lemma built_links_are_consistent_witness :
  (∀ p, parent MergedTrunk.node_X1 = Some p →
        ∃ np, MergedTrunk.graph !! p = Some np ∧ "X1" ∈ children np) ∧
  (∀ c, c ∈ children MergedTrunk.node_X1 →
        ∃ nc, MergedTrunk.graph !! c = Some nc ∧ is_master nc = false ∧
              is_Some (parent nc)).
Proof.
  apply (built_links_are_consistent elements 6 MergedTrunk.repo
           MergedTrunk.merge_base_db MergedTrunk.event_replayer "T"
           {["X1"; "P"; "T"]} MergedTrunk.graph "X1" MergedTrunk.node_X1).
  - vm_compute. reflexivity.
  - vm_compute. reflexivity.
Defined.

(** X9: over an acyclic object store, the parent links of the graph that
    [_walk_from_commits] returns have no cycle, and following them from any
    node ends at a node without parent. *)
Theorem built_parent_links_end (iter : gset Oid → list Oid) (fuel : nat)
    (repo : Repository) (rank : Oid → nat)
    (merge_base_db : MergeBaseDb) (event_replayer : EventReplayer)
    (master_oid : Oid) (commit_oids : gset Oid) (graph : CommitGraph) (k : Oid) :
  repo_ranked repo rank →
  _walk_from_commits iter fuel repo merge_base_db event_replayer master_oid commit_oids
    = Ok graph →
  is_Some (graph !! k) →
  ¬ tc (parent_edge graph) k k ∧ ∃ r, root_of graph k r.
Proof.
  intros Hranked Hbuilt%walk_from_commits_built Hk.
  assert (∀ x y, parent_edge graph x y → rank y < rank x ∧ is_Some (graph !! y))
    as Hedge.
  { intros x y (nx & Hx & Hp).
    destruct (built_parent repo graph Hbuilt _ _ _ Hx Hp) as (_ & Hin & np & Hnp & _).
    split; [|by eexists]. apply Hranked.
    apply (built_stored repo graph Hbuilt), repo_get_Ok in Hx as [_ Hx]. by eexists. }
  split.
  - assert (∀ x y, tc (parent_edge graph) x y → rank y < rank x) as Htc.
    { induction 1 as [x y Hxy | x y z Hxy _ IH];
        apply Hedge in Hxy as [? _]; lia. }
    intros Hcycle%Htc. lia.
  - remember (rank k) as m eqn:Hm. revert k Hm Hk.
    induction m as [m IH] using lt_wf_ind. intros k -> [n Hn].
    destruct (parent n) as [p|] eqn:Hp.
    + destruct (Hedge k p) as [Hlt Hpk]; [by exists n|].
      destruct (IH (rank p) Hlt p eq_refl Hpk) as (r & Hrtc & Hroot).
      exists r. split; [|done]. eapply rtc_l; [|done]. by exists n.
    + exists k. split; [apply rtc_refl|]. by exists n.
Qed.

Lemma built_parent_links_end_witness :
  ¬ tc (parent_edge MergedTrunk.graph) "P" "P" ∧ ∃ r, root_of MergedTrunk.graph "P" r.
Proof.
  apply (built_parent_links_end elements 6 MergedTrunk.repo MergedTrunk.rank
           MergedTrunk.merge_base_db MergedTrunk.event_replayer "T"
           {["X1"; "P"; "T"]}).
  - apply repo_ranked_check. vm_compute. reflexivity.
  - vm_compute. reflexivity.
  - vm_compute. eauto.
Defined.

(** ** Further properties of pruning *)






(** Nodes outside the set to hide stay in the graph. *)
Lemma hide_commits_keeps (iter : gset Oid → list Oid) (fuel : nat)
    (graph : CommitGraph) (branch_oids : gset Oid) (head_oid k : Oid) (n : Node) :
  (∀ (s : gset Oid) (x : Oid), x ∈ iter s ↔ x ∈ s) →
  graph !! k = Some n →
  should_hide iter fuel graph (branch_oids ∪ {[head_oid]}) k ≠ Ok true →
  ∃ n', (_hide_commits iter fuel graph branch_oids head_oid).2 !! k = Some n' ∧
        node_shrinks n n'.
Proof.
  intros Hiter Hn Hkeep. unfold _hide_commits.
  destruct (filter_m _ _) as [to_hide| |] eqn:Hf; simpl;
    [|exists n; split; [done | apply node_shrinks_refl]..].
  apply hide_loop_lookup_notin; [|done].
  rewrite Hiter. intros Hin.
  apply filter_m_Ok in Hf as [Hf _]. by apply Hf in Hin as [_ Hin].
Qed.

(** X12: for every graph, a node that is not a trunk node and is marked
    visible is still a key after [_hide_commits], and so is a trunk node
    that is marked not-visible; all their fields but [children] are
    untouched. *)
Theorem hide_commits_keeps_visible (iter : gset Oid → list Oid) (fuel : nat)
    (graph : CommitGraph) (branch_oids : gset Oid) (head_oid k : Oid) (n : Node) :
  (∀ (s : gset Oid) (x : Oid), x ∈ iter s ↔ x ∈ s) →
  graph !! k = Some n →
  is_visible n = negb (is_master n) →
  ∃ n', (_hide_commits iter fuel graph branch_oids head_oid).2 !! k = Some n' ∧
        node_shrinks n n'.
Proof.
  intros Hiter Hn Hv. apply hide_commits_keeps; [done..|].
  destruct fuel as [|f]; [done|]. rewrite should_hide_S.
  case_decide; [done|].
  apply graph_get_Ok in Hn. rewrite Hn. cbn [mbind result_bind].
  rewrite Hv. by destruct (is_master n).
Qed.

Lemma hide_commits_keeps_visible_witness :
  ∃ n', (_hide_commits elements 6 MergedTrunk.graph {["T"]} "T").2 !! "X1" = Some n' ∧
        node_shrinks MergedTrunk.node_X1 n'.
Proof.
  apply (hide_commits_keeps_visible elements 6 MergedTrunk.graph {["T"]} "T" "X1").
  - intros s x. apply elem_of_elements.
  - vm_compute. reflexivity.
  - reflexivity.
Defined.

(** X13: the linking pass never raises: when the loop over the interesting
    commits returns, [_walk_from_commits] returns a graph with the same
    keys. *)
Theorem link_pass_never_raises (iter : gset Oid → list Oid) (fuel : nat)
    (repo : Repository) (merge_base_db : MergeBaseDb) (event_replayer : EventReplayer)
    (master_oid : Oid) (commit_oids : gset Oid) (g0 : CommitGraph) :
  walk_loop fuel repo merge_base_db event_replayer master_oid (iter commit_oids) ∅
    = Ok g0 →
  ∃ graph,
    _walk_from_commits iter fuel repo merge_base_db event_replayer master_oid commit_oids
      = Ok graph ∧
    dom graph = dom g0.
Proof.
  intros Hwalk.
  destruct (walk_from_commits_links iter fuel repo merge_base_db event_replayer
              master_oid commit_oids g0 Hwalk) as [graph Hgraph].
  exists graph. split; [done|].
  apply walk_from_commits_stages in Hgraph as (g0' & Hwalk' & Hlook).
  assert (g0' = g0) as -> by congruence.
  apply set_eq. intros k. rewrite !elem_of_dom, Hlook. by rewrite fmap_is_Some.
Qed.

Lemma link_pass_never_raises_witness :
  ∃ graph,
    _walk_from_commits elements 5 Orphan.repo Orphan.no_merge_base Orphan.event_replayer
      "M" {["X"; "M"]} = Ok graph ∧
    dom graph = dom (<["M" := mkNode (mkCommit "M" []) None ∅ false true None]>
                     (<["X" := mkNode (mkCommit "X" []) None ∅ false true None]> ∅
                        : CommitGraph)).
Proof.
  apply (link_pass_never_raises elements 5 Orphan.repo Orphan.no_merge_base
           Orphan.event_replayer "M" {["X"; "M"]}).
  vm_compute. reflexivity.
Defined.

(** X14: when [make_graph] returns, with or without pruning, the identifier
    it returns is the target of HEAD, and the graph has HEAD and every
    local branch tip among its keys, unless the commit has a merge-base
    with the trunk to which no path was found. *)
Theorem make_graph_contains_refs (iter : gset Oid → list Oid) (fuel : nat)
    (repo : Repository) (merge_base_db : MergeBaseDb) (event_replayer : EventReplayer)
    (master_oid : Oid) (hide_commits : bool) (head_oid : Oid) (graph : CommitGraph)
    (o : Oid) :
  (∀ (s : gset Oid) (x : Oid), x ∈ iter s ↔ x ∈ s) →
  make_graph iter fuel repo merge_base_db event_replayer master_oid hide_commits
    = Ok (head_oid, graph) →
  o = head_oid ∨ o ∈ (map_img (local_branches repo) : gset Oid) →
  ¬ (∃ mb, merge_base_db o master_oid = Some mb ∧
           find_path_to_merge_base fuel repo merge_base_db o mb = Ok None) →
  HEAD repo = Some head_oid ∧ is_Some (graph !! o).
Proof.
  intros Hiter Hrun Ho Hfound. unfold make_graph in Hrun.
  destruct (HEAD repo) as [h|]; [|done]. cbv zeta in Hrun.
  destruct (_walk_from_commits _ _ _ _ _ _ _) as [g| |] eqn:Hwalk;
    cbn [mbind result_bind] in Hrun; [|done..].
  assert (is_Some (g !! o)) as [n Hn].
  { eapply (walk_from_commits_adds iter); [done | exact Hwalk | | done].
    destruct Ho as [-> | Ho].
    - assert (h = head_oid) as ->.
      { destruct hide_commits; [|by inversion Hrun].
        destruct (_hide_commits _ _ _ _ _) as [[[]|e|] g'];
          by inversion Hrun. }
      apply elem_of_union. right. by apply elem_of_singleton.
    - apply elem_of_union. left. apply elem_of_union. by right. }
  destruct hide_commits.
  - destruct (_hide_commits iter fuel g _ h) as [[[]|e|] g'] eqn:Hhide;
      inversion Hrun; subst. split; [done|].
    destruct (hide_commits_keeps iter fuel g (map_img (local_branches repo))
                head_oid o n Hiter Hn) as (n' & Hn' & _).
    + apply should_hide_unhideable.
      destruct Ho as [-> | Ho]; apply elem_of_union;
        [right; by apply elem_of_singleton | by left].
    + rewrite Hhide in Hn'. by eexists.
  - inversion Hrun; subst. split; [done | by eexists].
Qed.

Lemma make_graph_contains_refs_witness :
  HEAD Scenario.repo = Some "C" ∧ is_Some (Scenario.graph !! "C").
Proof.
  apply (make_graph_contains_refs elements 6 Scenario.repo Scenario.merge_base_db
           (Scenario.event_replayer ∅) "M" true "C" Scenario.graph "C").
  - intros s x. apply elem_of_elements.
  - vm_compute. reflexivity.
  - by left.
  - intros (mb & Hmb & Hpath). vm_compute in Hmb.
    injection Hmb as <-. vm_compute in Hpath. discriminate Hpath.
Defined.

(** ** The construction returns on a well-formed repository *)

Lemma expand_ranked (repo : Repository) (rank : Oid → nat) (target_oid : Oid)
    (merge_base_oid : option Oid) (n : nat) (path path' : list Commit) :
  repo_ranked repo rank →
  ancestry_path repo path →
  (∃ tip, last path = Some tip ∧ rank (oid tip) < S n) →
  path' ∈ expand repo target_oid merge_base_oid path →
  ancestry_path repo path' ∧ ∃ tip, last path' = Some tip ∧ rank (oid tip) < n.
Proof.
  intros Hranked Hpath (tip & Hlast & Hlt) Hin.
  apply elem_of_expand in Hin as (tip' & c & Hlast' & _ & _ & -> & Hpar & Hc).
  assert (tip' = tip) as -> by congruence.
  split; [by eapply ancestry_step|].
  exists c. split; [by rewrite last_snoc|].
  destruct (ancestry_path_last _ _ Hpath) as (tip1 & Htip1 & Hget).
  assert (tip1 = tip) as -> by congruence.
  apply repo_get_Ok in Hget as [_ Hget].
  assert (rank (oid c) < rank (oid tip)); [|lia].
  apply Hranked. by exists (parent_ids tip).
Qed.

(** Over a closed, acyclic object store the search loop ends. *)
Lemma search_terminates (repo : Repository) (rank : Oid → nat) (target_oid : Oid)
    (merge_base_oid : option Oid) (n : nat) (queue : list (list Commit)) :
  repo_closed repo → repo_ranked repo rank →
  Forall (λ path, ancestry_path repo path ∧
                  ∃ tip, last path = Some tip ∧ rank (oid tip) < n) queue →
  ∃ fuel0 r, ∀ fuel, fuel0 ≤ fuel →
    find_path_loop fuel repo target_oid merge_base_oid queue = Ok r.
Proof.
  intros Hclosed Hranked. revert queue. induction n as [|n IH]; intros queue Hall.
  - destruct queue as [|path queue].
    + exists 0, None. intros fuel _. by destruct fuel.
    + apply Forall_cons in Hall as [[_ (tip & _ & Hlt)] _]. lia.
  - assert (Forall (ancestry_path repo) queue) as Hpaths.
    { eapply Forall_impl; [exact Hall|]. by intros path [? _]. }
    destruct (List.find (hits target_oid) queue) as [found|] eqn:Hfind.
    + exists (length queue), (Some found). intros fuel Hfuel.
      by rewrite find_path_loop_whole_level, Hfind.
    + destruct (IH (queue ≫= expand repo target_oid merge_base_oid))
        as (fuel0 & r & Hrun).
      { rewrite Forall_forall. intros path' (path & Hin' & Hin)%list_elem_of_bind.
        rewrite Forall_forall in Hall. destruct (Hall _ Hin) as [Hpath Htip].
        by eapply expand_ranked. }
      exists (length queue + fuel0), r. intros fuel Hfuel.
      rewrite find_path_loop_whole_level, Hfind; [|done..|lia]. apply Hrun. lia.
Qed.

Lemma find_path_terminates (repo : Repository) (rank : Oid → nat)
    (merge_base_db : MergeBaseDb) (commit_oid target_oid : Oid) :
  repo_closed repo → repo_ranked repo rank →
  is_Some (objects repo !! commit_oid) →
  ∃ fuel0 r, ∀ fuel, fuel0 ≤ fuel →
    find_path_to_merge_base fuel repo merge_base_db commit_oid target_oid = Ok r.
Proof.
  intros Hclosed Hranked [ps Hps].
  destruct (search_terminates repo rank target_oid
              (merge_base_db commit_oid target_oid) (S (rank commit_oid))
              [[mkCommit commit_oid ps]] Hclosed Hranked) as (fuel0 & r & Hrun).
  { apply Forall_singleton. split; [constructor; by apply repo_get_Ok|].
    eexists. split; [done|]. simpl. lia. }
  exists fuel0, r. intros fuel Hfuel. unfold find_path_to_merge_base, repo_get.
  rewrite Hps. simpl. by apply Hrun.
Qed.




(** X16: the walk along a path stops for good at the first commit that is a
    key of the graph already: nothing that follows it on the path is added,
    whether or not it is a key. *)
Theorem add_path_stops_at_known_commit (event_replayer : EventReplayer)
    (merge_base_oid : option Oid) (pre rest : list Commit) (c : Commit)
    (graph : CommitGraph) :
  is_Some (graph !! oid c) →
  add_path event_replayer merge_base_oid (pre ++ c :: rest) graph
    = add_path event_replayer merge_base_oid pre graph.
Proof.
  revert graph. induction pre as [|c0 pre IH]; intros graph Hc; simpl.
  - by rewrite decide_True.
  - case_decide as Hc0; [done|]. apply IH.
    eapply lookup_weaken_is_Some; [exact Hc|]. apply insert_subseteq.
    by apply eq_None_not_Some.
Qed.

Lemma add_path_stops_at_known_commit_witness :
  add_path Orphan.event_replayer None
    ([mkCommit "X" ["M"]] ++ mkCommit "M" ["R"] :: [mkCommit "R" []])
    (<["M" := mkNode (mkCommit "M" ["R"]) None ∅ true true None]> ∅)
  = add_path Orphan.event_replayer None [mkCommit "X" ["M"]]
      (<["M" := mkNode (mkCommit "M" ["R"]) None ∅ true true None]> ∅).
Proof.
  apply (add_path_stops_at_known_commit Orphan.event_replayer None
           [mkCommit "X" ["M"]] [mkCommit "R" []] (mkCommit "M" ["R"])).
  vm_compute. eauto.
Defined.

(** No commit before the last of [path] is the target or the merge-base. *)
Definition avoids (target_oid : Oid) (merge_base_oid : option Oid)
    (path : list Commit) : Prop :=
  ∀ pre suf tip, path = pre ++ suf → suf ≠ [] → last pre = Some tip →
    oid tip ≠ target_oid ∧ Some (oid tip) ≠ merge_base_oid.

Lemma avoids_snoc (target_oid : Oid) (merge_base_oid : option Oid)
    (path : list Commit) (tip c : Commit) :
  avoids target_oid merge_base_oid path → last path = Some tip →
  oid tip ≠ target_oid → Some (oid tip) ≠ merge_base_oid →
  avoids target_oid merge_base_oid (path ++ [c]).
Proof.
  intros Hpath Hlast Ht Hmb pre suf tip' Heq Hne Hpre.
  destruct suf as [|x suf _] using rev_ind; [done|].
  rewrite app_assoc in Heq. apply app_inj_tail in Heq as [-> _].
  destruct suf as [|y suf].
  - rewrite app_nil_r in Hlast. by simplify_eq.
  - by apply (Hpath pre (y :: suf) tip').
Qed.

Lemma find_path_loop_avoids (repo : Repository) (target_oid : Oid)
    (merge_base_oid : option Oid) (fuel : nat) (queue : list (list Commit))
    (path : list Commit) :
  Forall (avoids target_oid merge_base_oid) queue →
  find_path_loop fuel repo target_oid merge_base_oid queue = Ok (Some path) →
  avoids target_oid merge_base_oid path.
Proof.
  revert queue. induction fuel as [|fuel IH]; intros queue Hall H.
  - by destruct queue.
  - destruct queue as [|path0 queue]; [done|]. simpl in H.
    apply Forall_cons in Hall as [Hpath0 Hall].
    destruct (last path0) as [tip|] eqn:Hlast; [|done].
    destruct (decide (oid tip = target_oid)); [by inversion H; subst|].
    destruct (decide (Some (oid tip) = merge_base_oid)); [by eapply IH|].
    destruct (commit_parents repo tip) as [parents| |]; simpl in H; [|done..].
    eapply IH; [|exact H]. apply Forall_app. split; [done|].
    apply Forall_fmap, Forall_forall. intros c _. simpl. by eapply avoids_snoc.
Qed.

(** X17: a path that [find_path_to_merge_base] returns meets neither the
    target nor the recorded merge-base of the two commits before its last
    commit: the search does not look beyond either of them. *)
Theorem find_path_avoids_merge_base (repo : Repository) (merge_base_db : MergeBaseDb)
    (fuel : nat) (commit_oid target_oid : Oid) (path pre suf : list Commit)
    (tip : Commit) :
  find_path_to_merge_base fuel repo merge_base_db commit_oid target_oid
    = Ok (Some path) →
  path = pre ++ suf → suf ≠ [] → last pre = Some tip →
  oid tip ≠ target_oid ∧ Some (oid tip) ≠ merge_base_db commit_oid target_oid.
Proof.
  unfold find_path_to_merge_base. intros H.
  destruct (repo_get repo commit_oid) as [start| |]; simpl in H; [|done..].
  apply find_path_loop_avoids in H; [apply H|].
  apply Forall_singleton. intros pre' suf' tip' Heq Hne Hpre.
  destruct pre' as [|x [|y pre']]; [done| |by destruct pre'].
  destruct suf'; [done | discriminate Heq].
Qed.

Lemma find_path_avoids_merge_base_witness :
  oid (mkCommit "R" ["T"]) ≠ "T" ∧
  Some (oid (mkCommit "R" ["T"])) ≠ Diamond.merge_base_db "S" "T".
Proof.
  apply (find_path_avoids_merge_base Diamond.repo Diamond.merge_base_db 10 "S" "T"
           [mkCommit "S" ["L1"; "R"]; mkCommit "R" ["T"]; mkCommit "T" []]
           [mkCommit "S" ["L1"; "R"]; mkCommit "R" ["T"]] [mkCommit "T" []]).
  - vm_compute. reflexivity.
  - reflexivity.
  - done.
  - reflexivity.
Defined.

Lemma walk_loop_missing_commit (fuel : nat) (repo : Repository)
    (merge_base_db : MergeBaseDb) (event_replayer : EventReplayer)
    (master_oid c : Oid) (commit_oids : list Oid) (graph graph' : CommitGraph) :
  c ∈ commit_oids → objects repo !! c = None →
  walk_loop fuel repo merge_base_db event_replayer master_oid commit_oids graph
    ≠ Ok graph'.
Proof.
  intros Hin Hnone. revert graph.
  induction commit_oids as [|c' cs IH]; intros graph H; [by apply elem_of_nil in Hin|].
  simpl in H.
  destruct (walk_commit _ _ _ _ _ _ _) as [g1| |] eqn:Hc; simpl in H; [|done..].
  apply elem_of_cons in Hin as [-> | Hin]; [|by eapply IH].
  unfold walk_commit, repo_get in Hc. by rewrite Hnone in Hc.
Qed.

(** X18: [make_graph] does not return a graph when HEAD does not resolve, or
    when HEAD, a local branch or an active identifier names a commit that
    the object store does not hold: unlike a missing merge-base or path, a
    missing commit object is not skipped. *)
Theorem make_graph_fails_on_missing_commit (iter : gset Oid → list Oid) (fuel : nat)
    (repo : Repository) (merge_base_db : MergeBaseDb) (event_replayer : EventReplayer)
    (master_oid : Oid) (hide_commits : bool) (r : Oid * CommitGraph) :
  (∀ (s : gset Oid) (x : Oid), x ∈ iter s ↔ x ∈ s) →
  HEAD repo = None ∨
  (∃ head_oid c,
     HEAD repo = Some head_oid ∧
     c ∈ get_active_oids event_replayer ∪ map_img (local_branches repo) ∪ {[head_oid]} ∧
     objects repo !! c = None) →
  make_graph iter fuel repo merge_base_db event_replayer master_oid hide_commits ≠ Ok r.
Proof.
  intros Hiter Hcase Hrun. unfold make_graph in Hrun.
  destruct Hcase as [Hnone | (head_oid & c & Hhead & Hc & Hmissing)].
  - by rewrite Hnone in Hrun.
  - rewrite Hhead in Hrun. cbv zeta in Hrun. unfold _walk_from_commits in Hrun.
    destruct (walk_loop _ _ _ _ _ _ _) as [g0| |] eqn:Hwalk;
      cbn [mbind result_bind] in Hrun; [|done..].
    eapply walk_loop_missing_commit; [|exact Hmissing|exact Hwalk].
    by apply Hiter.
Qed.

Lemma make_graph_fails_on_missing_commit_witness :
  make_graph elements 5 Orphan.repo Orphan.no_merge_base
    (mkEventReplayer (λ _, None) (λ _, None) {["Z"]}) "M" true
  ≠ Ok ("M", ∅).
Proof.
  apply (make_graph_fails_on_missing_commit elements 5 Orphan.repo Orphan.no_merge_base
           (mkEventReplayer (λ _, None) (λ _, None) {["Z"]}) "M" true ("M", ∅)).
  - intros s x. apply elem_of_elements.
  - right. exists "M", "Z". split; [reflexivity|]. split; [|vm_compute; reflexivity].
    apply elem_of_union. left. apply elem_of_union. left.
    cbn [get_active_oids]. by apply elem_of_singleton.
Defined.

(** ** The pruned graph, exactly *)

















(** X21: over an object store that is closed under parents and acyclic, the
    search from a stored commit always ends, whatever the target and the
    recorded merge-base: with enough fuel it returns a path or absent. *)
Theorem find_path_always_returns (repo : Repository) (rank : Oid → nat)
    (merge_base_db : MergeBaseDb) (commit_oid target_oid : Oid) :
  repo_closed repo → repo_ranked repo rank →
  is_Some (objects repo !! commit_oid) →
  ∃ fuel0 r, ∀ fuel, fuel0 ≤ fuel →
    find_path_to_merge_base fuel repo merge_base_db commit_oid target_oid = Ok r.
Proof. apply find_path_terminates. Qed.

Lemma find_path_always_returns_witness :
  ∃ fuel0 r, ∀ fuel, fuel0 ≤ fuel →
    find_path_to_merge_base fuel Diamond.repo Diamond.merge_base_db "S" "L2" = Ok r.
Proof.
  apply (find_path_always_returns Diamond.repo Diamond.rank Diamond.merge_base_db
           "S" "L2").
  - apply repo_closed_check. vm_compute. reflexivity.
  - apply repo_ranked_check. vm_compute. reflexivity.
  - vm_compute. eauto.
Defined.
